(** * bthread: the work-stealing ready queue and the context-switch primitive

    A shallow embedding of [src/bthread/work_stealing_queue.h] (the
    [WorkStealingQueue<T>] class template) and of the contract of the two
    routines declared in [src/bthread/context.h], together with the
    properties of their behaviour: call by call for one thread, and access
    by access for an owner and thieves that run together.

    Conventions.
    - [size_t] is a 64-bit unsigned integer: a [Z] in [0, 2^64), every
      arithmetic operation of the source is followed by its wrap-around.
    - The atomics [_bottom] and [_top] are plain fields.  The member
      functions are given as whole calls, for one thread at a time, and
      once more one access at a time, for threads whose accesses are
      interleaved.  In both a load returns the last value stored
      (sequential consistency), so that the memory orders and the fences
      have no effect on the values.
    - [_buffer] is [None] for the null pointer and [Some l] for an array
      whose cells are the elements of [l]; an access through the null
      pointer or outside the array is a fault, not a value. *)

From Stdlib Require Import ZArith Lia Bool.
From stdpp Require Import base option list gmap.

Local Open Scope Z_scope.

(** ** Machine arithmetic on [size_t] *)

Module SizeT.

Definition bits : Z := 64.
Definition modulus : Z := 2 ^ bits.

Definition wrap (z : Z) : Z := z mod modulus.

Definition add (a b : Z) : Z := wrap (a + b).
Definition sub (a b : Z) : Z := wrap (a - b).
Definition and (a b : Z) : Z := Z.land a b.

Definition in_range (z : Z) : Prop := 0 <= z < modulus.

End SizeT.

(** A capacity is a power of two when it is [2^k] for some [k >= 0]. *)
Definition power_of_two (c : Z) : Prop := exists k : Z, 0 <= k /\ c = 2 ^ k.

(** ** The queue object *)

Section Queue.

Context {T : Type}.

(** The value of a default-initialised [T], with which [new T[n]] fills
    the array it returns. *)
Variable T_default : T.

(** The greatest number of cells an array of [T] may have: a
    new-expression that asks for more does not call the allocation function
    and throws [std::bad_array_new_length] (with g++ the limit is
    [PTRDIFF_MAX / sizeof(T)]).  On an implementation that yields the null
    pointer instead the limit is [SIZE_MAX] or more, and the heap refuses
    such requests. *)
Variable array_limit : Z.

(** The four data members of the class, in declaration order. *)
Record WorkStealingQueue : Type := MkQueue {
  _bottom : Z;
  _capacity : Z;
  _buffer : option (list T);
  _top : Z
}.

(** What stops a member function before it returns. *)
Inductive fault : Type :=
| NullBuffer      (* [_buffer[i]] with [_buffer == NULL] *)
| OutOfBounds     (* [_buffer[i]] with [i] outside the array *)
| OutOfFuel.      (* the retry loop of [steal] was cut off *)

(** The exceptions that leave a member function. *)
Inductive exception : Type :=
| bad_array_new_length.   (* [std::bad_array_new_length] *)

(** A member function returns a value, faults, or is left by an exception
    that propagates to its caller; the object is then in the state the
    function had brought it to. *)
Inductive outcome (A : Type) : Type :=
| Ok (a : A) (q : WorkStealingQueue)
| Fault (f : fault)
| Thrown (e : exception) (q : WorkStealingQueue).
Arguments Ok {A} a q.
Arguments Fault {A} f.
Arguments Thrown {A} e q.

(** Member functions are state transformers over the object that may fault
    or throw. *)
Definition M (A : Type) : Type := WorkStealingQueue -> outcome A.

Definition ret {A} (a : A) : M A := fun q => Ok a q.

Definition bind {A B} (m : M A) (f : A -> M B) : M B :=
  fun q => match m q with
           | Ok a q' => f a q'
           | Fault e => Fault e
           | Thrown e q' => Thrown e q'
           end.

Notation "x <- m ;; k" := (bind m (fun x => k))
  (at level 100, m at next level, right associativity).
Notation "m ;;; k" := (bind m (fun _ => k))
  (at level 100, right associativity).

(** *** Accesses to the members *)

Definition load_bottom : M Z := fun q => Ok (_bottom q) q.
Definition load_top : M Z := fun q => Ok (_top q) q.
Definition get_capacity : M Z := fun q => Ok (_capacity q) q.

Definition store_bottom (v : Z) : M unit :=
  fun q => Ok tt (MkQueue v (_capacity q) (_buffer q) (_top q)).
Definition set_capacity (v : Z) : M unit :=
  fun q => Ok tt (MkQueue (_bottom q) v (_buffer q) (_top q)).
Definition set_buffer (p : option (list T)) : M unit :=
  fun q => Ok tt (MkQueue (_bottom q) (_capacity q) p (_top q)).
Definition get_buffer : M (option (list T)) := fun q => Ok (_buffer q) q.

(** [_buffer[i]] as an rvalue. *)
Definition buffer_read (i : Z) : M T :=
  fun q => match _buffer q with
           | None => Fault NullBuffer
           | Some l => match l !! Z.to_nat i with
                       | Some x => Ok x q
                       | None => Fault OutOfBounds
                       end
           end.

(** [_buffer[i] = x]. *)
Definition buffer_write (i : Z) (x : T) : M unit :=
  fun q => match _buffer q with
           | None => Fault NullBuffer
           | Some l =>
               if decide (Z.to_nat i < length l)%nat
               then Ok tt (MkQueue (_bottom q) (_capacity q)
                                   (Some (<[Z.to_nat i := x]> l)) (_top q))
               else Fault OutOfBounds
           end.

(** [atomic_thread_fence]: orders memory accesses, changes no value. *)
Definition atomic_thread_fence : M unit := ret tt.

(** [_top.compare_exchange_strong(expected, desired)]: when [_top] holds
    [expected] it becomes [desired] and the call yields [true]; otherwise
    [expected] receives the value of [_top] and the call yields [false].
    The result carries the new value of [expected]. *)
Definition top_compare_exchange_strong (expected desired : Z) : M (bool * Z) :=
  fun q => if _top q =? expected
           then Ok (true, expected)
                   (MkQueue (_bottom q) (_capacity q) (_buffer q) desired)
           else Ok (false, _top q) q.

(** [new(std::nothrow) T[n]].  When [n] exceeds [array_limit] the
    expression throws [std::bad_array_new_length] before any allocation:
    [std::nothrow] silences the allocation function, not this check.
    Otherwise it yields a fresh array of [n] default-initialised cells, or
    the null pointer when the heap cannot serve the request
    ([heap_ok = false]). *)
Definition new_nothrow (heap_ok : bool) (n : Z) : M (option (list T)) :=
  fun q => if array_limit <? n then Thrown bad_array_new_length q
           else Ok (if heap_ok
                    then Some (replicate (Z.to_nat n) T_default)
                    else None) q.

(** *** The member functions *)

(** [WorkStealingQueue()] *)
Definition constructed : WorkStealingQueue :=
  {| _bottom := 1; _capacity := 0; _buffer := None; _top := 1 |}.

(** [int init(size_t capacity)] *)
Definition init (heap_ok : bool) (capacity : Z) : M Z :=
  c <- get_capacity ;;
  if negb (c =? 0) then ret (-1)
  else if capacity =? 0 then ret (-1)
  else if negb (SizeT.and capacity (SizeT.sub capacity 1) =? 0) then ret (-1)
  else
    a <- new_nothrow heap_ok capacity ;;
    set_buffer a ;;;
    p <- get_buffer ;;
    match p with
    | None => ret (-1)
    | Some _ => set_capacity capacity ;;; ret 0
    end.

(** [bool push(const T& x)] *)
Definition push (x : T) : M bool :=
  b <- load_bottom ;;
  t <- load_top ;;
  c <- get_capacity ;;
  if b >=? SizeT.add t c then ret false
  else
    buffer_write (SizeT.and b (SizeT.sub c 1)) x ;;;
    store_bottom (SizeT.add b 1) ;;;
    ret true.

(** [bool pop(T* val)]: [val] is the content of the cell the caller passes;
    the result carries the content of that cell on return. *)
Definition pop (val : T) : M (bool * T) :=
  b <- load_bottom ;;
  t <- load_top ;;
  if t >=? b then ret (false, val)
  else
    let newb := SizeT.sub b 1 in
    store_bottom newb ;;;
    atomic_thread_fence ;;;
    t <- load_top ;;
    if t >? newb then
      store_bottom b ;;; ret (false, val)
    else
      c <- get_capacity ;;
      val <- buffer_read (SizeT.and newb (SizeT.sub c 1)) ;;
      if negb (t =? newb) then ret (true, val)
      else
        r <- top_compare_exchange_strong t (SizeT.add t 1) ;;
        let popped := fst r in
        store_bottom b ;;;
        ret (popped, val).

(** The [do ... while] of [steal]; [fuel] bounds the number of rounds. *)
Fixpoint steal_loop (fuel : nat) (t : Z) (val : T) : M (bool * T) :=
  match fuel with
  | O => fun _ => Fault OutOfFuel
  | S fuel' =>
      atomic_thread_fence ;;;
      b <- load_bottom ;;
      if t >=? b then ret (false, val)
      else
        c <- get_capacity ;;
        val <- buffer_read (SizeT.and t (SizeT.sub c 1)) ;;
        r <- top_compare_exchange_strong t (SizeT.add t 1) ;;
        if fst r then ret (true, val)
        else steal_loop fuel' (snd r) val
  end.

(** [bool steal(T* val)] *)
Definition steal (fuel : nat) (val : T) : M (bool * T) :=
  t <- load_top ;;
  b <- load_bottom ;;
  if t >=? b then ret (false, val)
  else steal_loop fuel t val.

(** [size_t volatile_size() const] *)
Definition volatile_size : M Z :=
  b <- load_bottom ;;
  t <- load_top ;;
  ret (if b <=? t then 0 else SizeT.sub b t).

(** [size_t capacity() const] *)
Definition capacity : M Z := get_capacity.

(** *** Sequences of calls by one thread *)

(** A call of one of the three operations.  [Pop] and [Steal] carry the
    content of the cell that receives the item; [Steal] also carries the
    number of rounds its loop may take beyond the first. *)
Inductive op : Type :=
| Push (x : T)
| Pop (val : T)
| Steal (extra_rounds : nat) (val : T).

(** The call, reduced to the flag it returns. *)
Definition call (o : op) : M bool :=
  match o with
  | Push x => push x
  | Pop val => r <- pop val ;; ret (fst r)
  | Steal extra val => r <- steal (S extra) val ;; ret (fst r)
  end.

(** How many pushes returned true, how many returned false, and how many
    pops and steals returned true. *)
Record tally : Type := MkTally {
  pushes_ok : Z;
  pushes_failed : Z;
  takes_ok : Z
}.

Definition count (o : op) (flag : bool) (n : tally) : tally :=
  match o, flag with
  | Push _, true => MkTally (pushes_ok n + 1) (pushes_failed n) (takes_ok n)
  | Push _, false => MkTally (pushes_ok n) (pushes_failed n + 1) (takes_ok n)
  | _, true => MkTally (pushes_ok n) (pushes_failed n) (takes_ok n + 1)
  | _, false => n
  end.

(** The calls of [ops] one after the other, starting from the tally [n]. *)
Fixpoint run (ops : list op) (n : tally) : M tally :=
  match ops with
  | [] => ret n
  | o :: ops' => flag <- call o ;; run ops' (count o flag n)
  end.

(** *** States of the queue *)

Implicit Types (q : WorkStealingQueue) (x : T).

(** The content of cell [i] of the ring, when there is one. *)
Definition slot q (i : Z) : option T :=
  match _buffer q with
  | Some l => l !! Z.to_nat i
  | None => None
  end.

(** The state of a queue on which [init] has succeeded: the counters are
    [size_t] values, the capacity is a power of two that fits a [size_t],
    and the ring is an array of that many cells. *)
Definition initialized q : Prop :=
  SizeT.in_range (_bottom q) /\ SizeT.in_range (_top q) /\
  _capacity q < SizeT.modulus /\ power_of_two (_capacity q) /\
  exists l, _buffer q = Some l /\ Z.of_nat (length l) = _capacity q.

(** The two inequalities of the data model. *)
Definition invariant q : Prop :=
  _bottom q >= _top q /\ _bottom q - _top q <= _capacity q.

(** The state of a queue on which no [init] has succeeded yet: no ring,
    and counters that are equal, as the constructor leaves them. *)
Definition uninitialized q : Prop :=
  SizeT.in_range (_bottom q) /\ _top q = _bottom q /\
  _capacity q = 0 /\ _buffer q = None.

(** What is left in a queue of exactly one item: [volatile_size] is 1 and
    both ends deliver that item. *)
Definition holds_only q x : Prop :=
  volatile_size q = Ok 1 q /\
  (forall val, exists q', pop val q = Ok (true, x) q') /\
  (forall (extra : nat) val, exists q', steal (S extra) val q = Ok (true, x) q').

(** [push(a); push(b)] both return true and, on the queue they leave,
    [pop] returns [b] and leaves [a], whereas [steal] returns [a] and leaves
    [b]. *)
Definition two_ends q (a b val : T) (extra : nat) : Prop :=
  exists q1 q2, push a q = Ok true q1 /\ push b q1 = Ok true q2 /\
    (exists q3, pop val q2 = Ok (true, b) q3 /\ holds_only q3 a) /\
    (exists q3, steal (S extra) val q2 = Ok (true, a) q3 /\ holds_only q3 b).

(** *** The queue as a sequence of items *)

(** The items the queue holds, oldest first: the cells of the counters
    from [_top] up to [_bottom], the latter excluded. *)
Definition contents q : list T :=
  omap (fun i => slot q (i mod _capacity q))
       (seqZ (_top q) (_bottom q - _top q)).

(** What a call gives back to its caller: the flag of a [push], or the
    item of a [pop] or [steal] that returned true. *)
Inductive reply : Type :=
| Pushed (ok : bool)
| Took (item : option T).

Definition taken (r : bool * T) : option T :=
  if fst r then Some (snd r) else None.

Definition perform (o : op) : M reply :=
  match o with
  | Push x => ok <- push x ;; ret (Pushed ok)
  | Pop val => r <- pop val ;; ret (Took (taken r))
  | Steal extra val => r <- steal (S extra) val ;; ret (Took (taken r))
  end.

Fixpoint perform_all (ops : list op) : M (list reply) :=
  match ops with
  | [] => ret []
  | o :: ops' => r <- perform o ;; rs <- perform_all ops' ;; ret (r :: rs)
  end.

(** The same calls on a plain list bounded by [cap]: [push] appends unless
    the list is full, [pop] takes the last item, [steal] the first. *)
Definition deque_perform (cap : Z) (o : op) (xs : list T) : reply * list T :=
  match o with
  | Push x =>
      if Z.of_nat (length xs) <? cap then (Pushed true, xs ++ [x])
      else (Pushed false, xs)
  | Pop _ =>
      match last xs with
      | Some x => (Took (Some x), removelast xs)
      | None => (Took None, xs)
      end
  | Steal _ _ =>
      match xs with
      | x :: xs' => (Took (Some x), xs')
      | [] => (Took None, [])
      end
  end.

Fixpoint deque_perform_all (cap : Z) (ops : list op) (xs : list T)
    : list reply * list T :=
  match ops with
  | [] => ([], xs)
  | o :: ops' =>
      let (r, xs') := deque_perform cap o xs in
      let (rs, xs'') := deque_perform_all cap ops' xs' in
      (r :: rs, xs'')
  end.

(** *** The member functions in segments *)

(** [pop] up to its fence (lines 88-97): [None] when it has returned false,
    otherwise the value of [b]. *)
Definition pop_begin : M (option Z) :=
  b <- load_bottom ;;
  t <- load_top ;;
  if t >=? b then ret None
  else
    store_bottom (SizeT.sub b 1) ;;;
    atomic_thread_fence ;;;
    ret (Some b).

(** [pop] from the fence up to the exchange (lines 102-110): either what it
    returns, or the values of [t] and [*val] with which it goes on. *)
Definition pop_reread (b : Z) (val : T) : M ((bool * T) + (Z * T)) :=
  let newb := SizeT.sub b 1 in
  t <- load_top ;;
  if t >? newb then
    store_bottom b ;;; ret (inl (false, val))
  else
    c <- get_capacity ;;
    val <- buffer_read (SizeT.and newb (SizeT.sub c 1)) ;;
    if negb (t =? newb) then ret (inl (true, val))
    else ret (inr (t, val)).

(** The end of [pop] (lines 112-115). *)
Definition pop_exchange (b t : Z) (val : T) : M (bool * T) :=
  r <- top_compare_exchange_strong t (SizeT.add t 1) ;;
  let popped := fst r in
  store_bottom b ;;;
  ret (popped, val).

(** What is left of [pop] after [pop_begin]. *)
Definition pop_finish (val : T) (begun : option Z) : M (bool * T) :=
  match begun with
  | None => ret (false, val)
  | Some b =>
      s <- pop_reread b val ;;
      match s with
      | inl res => ret res
      | inr (t, v) => pop_exchange b t v
      end
  end.

(** [steal] up to its loop (lines 122-127): [None] when it has returned
    false, otherwise the value of [t]. *)
Definition steal_begin : M (option Z) :=
  t <- load_top ;;
  b <- load_bottom ;;
  if t >=? b then ret None else ret (Some t).

(** One round of the loop up to the exchange (lines 129-134): [None] when
    it has returned false, otherwise the item read. *)
Definition steal_reads (t : Z) : M (option T) :=
  atomic_thread_fence ;;;
  b <- load_bottom ;;
  if t >=? b then ret None
  else
    c <- get_capacity ;;
    val <- buffer_read (SizeT.and t (SizeT.sub c 1)) ;;
    ret (Some val).

(** The exchange that ends a round (lines 135-138): on failure the loop
    goes on with the refreshed [t]. *)
Definition steal_exchange (fuel : nat) (t : Z) (val : T) : M (bool * T) :=
  r <- top_compare_exchange_strong t (SizeT.add t 1) ;;
  if fst r then ret (true, val)
  else steal_loop fuel (snd r) val.

(** A thief up to its first exchange: the values of [t] and [*val] it
    holds, or [None] when it has returned false. *)
Definition thief_reads : M (option (Z * T)) :=
  r <- steal_begin ;;
  match r with
  | None => ret None
  | Some t =>
      v <- steal_reads t ;;
      match v with
      | None => ret None
      | Some x => ret (Some (t, x))
      end
  end.

(** What is left of [steal] after [thief_reads]. *)
Definition thief_finish (fuel : nat) (val : T) (held : option (Z * T))
    : M (bool * T) :=
  match held with
  | None => ret (false, val)
  | Some (t, x) => steal_exchange fuel t x
  end.

(** *** A pop and a steal that overlap *)

(** The thief has read the item; the owner then runs [pop] up to its
    fence; the thief exchanges; the owner finishes. *)
Definition steal_lands_before_reread (fuel : nat) (val_o val_t : T)
    : M ((bool * T) * (bool * T)) :=
  held <- thief_reads ;;
  begun <- pop_begin ;;
  rt <- thief_finish fuel val_t held ;;
  ro <- pop_finish val_o begun ;;
  ret (ro, rt).

(** The thief has read the item; the owner runs [pop] up to its exchange;
    the thief exchanges first; the owner exchanges. *)
Definition steal_lands_before_exchange (fuel : nat) (val_o val_t : T)
    : M ((bool * T) * (bool * T)) :=
  held <- thief_reads ;;
  begun <- pop_begin ;;
  match begun with
  | None => rt <- thief_finish fuel val_t held ;; ret ((false, val_o), rt)
  | Some b =>
      s <- pop_reread b val_o ;;
      rt <- thief_finish fuel val_t held ;;
      ro <- match s with
            | inl res => ret res
            | inr (t, v) => pop_exchange b t v
            end ;;
      ret (ro, rt)
  end.

(** The thief has read the item; the owner runs a whole [pop]; the thief
    exchanges. *)
Definition pop_lands_before_exchange (fuel : nat) (val_o val_t : T)
    : M ((bool * T) * (bool * T)) :=
  held <- thief_reads ;;
  ro <- pop val_o ;;
  rt <- thief_finish fuel val_t held ;;
  ret (ro, rt).

(** The owner has run [pop] up to its fence; a thief runs a whole [steal];
    the owner finishes. *)
Definition steal_inside_pop (fuel : nat) (val_o val_t : T)
    : M ((bool * T) * (bool * T)) :=
  begun <- pop_begin ;;
  rt <- steal fuel val_t ;;
  ro <- pop_finish val_o begun ;;
  ret (ro, rt).

(** Two thieves have both read the same item; the first exchanges, then
    the second. *)
Definition two_thieves (fuel : nat) (val1 val2 : T)
    : M ((bool * T) * (bool * T)) :=
  held1 <- thief_reads ;;
  held2 <- thief_reads ;;
  r1 <- thief_finish fuel val1 held1 ;;
  r2 <- thief_finish fuel val2 held2 ;;
  ret (r1, r2).

End Queue.

Arguments WorkStealingQueue T : clear implicits.
Arguments outcome T A : clear implicits.
Arguments Ok {T A} a q.
Arguments Fault {T A} f.
Arguments Thrown {T A} e q.
Arguments op T : clear implicits.
Arguments reply T : clear implicits.

(** ** One owner and several thieves *)

(** The member functions once more, one access to the shared members at a
    time, so that the accesses of several threads can be interleaved.  A
    thread is at a line of the source, about to make the access of that
    line, and holds the values of its local variables.  The accesses take
    effect one after the other, in the order of the schedule, and a load
    returns the last value stored: the interleaving is sequentially
    consistent, and the memory orders and the fences of the source change
    no value. *)

Section Threads.

Context {T : Type}.

Local Notation "x <- m ;; k" := (bind m (fun x => k))
  (at level 100, m at next level, right associativity).
Local Notation "m ;;; k" := (bind m (fun _ => k))
  (at level 100, right associativity).

(** Where the owner is: between two calls, or inside [push] or [pop] right
    before the access to the shared members on the line of that number,
    with the values of its local variables. *)
Inductive owner : Type :=
| owner_idle
| push_74 (x : T) (b : Z)            (* [t = _top.load()], full-queue test *)
| push_78 (x : T) (b t : Z)          (* [_buffer[...] = x] *)
| push_79 (x : T) (b t : Z)          (* [_bottom.store(b + 1)] *)
| pop_89 (b : Z)                     (* [t = _top.load()], empty test *)
| pop_96 (b t : Z)                   (* [_bottom.store(newb)], fence *)
| pop_102 (b : Z)                    (* [t = _top.load()], [t > newb] ? *)
| pop_104 (b t : Z)                  (* [_bottom.store(b)], return false *)
| pop_107 (b t : Z)                  (* [*val = _buffer[...]], [t != newb] ? *)
| pop_112 (b t : Z) (val : T)        (* the compare-exchange on [_top] *)
| pop_114 (b : Z) (popped : bool) (val : T).  (* [_bottom.store(b)] *)

(** Where a thief is inside [steal]. *)
Inductive thief : Type :=
| thief_idle
| steal_123 (t : Z)                  (* [b = _bottom.load()], empty test *)
| steal_130 (t : Z)                  (* fence, [b = _bottom.load()], test *)
| steal_134 (t : Z)                  (* [*val = _buffer[...]] *)
| steal_135 (t : Z) (val : T).       (* the compare-exchange on [_top] *)

(** The calls the owner makes. *)
Inductive owner_call : Type :=
| call_push (x : T)
| call_pop.

(** A call that has returned, with what it returned: the flag of a [push],
    the item of a [pop] or [steal] that returned true. *)
Inductive answer : Type :=
| push_returned (x : T) (ok : bool)
| pop_returned (item : option T)
| steal_returned (who : nat) (item : option T).

(** One access of the owner to the shared members, with the local
    computation that follows it up to the next access.  Between two calls
    the owner enters the next call of its program and makes its first
    access. *)
Definition owner_step (o : owner) (calls : list owner_call)
    : M (owner * list owner_call * list answer) :=
  match o with
  | owner_idle =>
      match calls with
      | [] => ret (owner_idle, [], [])
      | call_push x :: calls' =>
          b <- load_bottom ;; ret (push_74 x b, calls', [])
      | call_pop :: calls' =>
          b <- load_bottom ;; ret (pop_89 b, calls', [])
      end
  | push_74 x b =>
      t <- load_top ;;
      c <- get_capacity ;;
      if b >=? SizeT.add t c
      then ret (owner_idle, calls, [push_returned x false])
      else ret (push_78 x b t, calls, [])
  | push_78 x b t =>
      c <- get_capacity ;;
      buffer_write (SizeT.and b (SizeT.sub c 1)) x ;;;
      ret (push_79 x b t, calls, [])
  | push_79 x b t =>
      store_bottom (SizeT.add b 1) ;;;
      ret (owner_idle, calls, [push_returned x true])
  | pop_89 b =>
      t <- load_top ;;
      if t >=? b then ret (owner_idle, calls, [pop_returned None])
      else ret (pop_96 b t, calls, [])
  | pop_96 b t =>
      store_bottom (SizeT.sub b 1) ;;;
      atomic_thread_fence ;;;
      ret (pop_102 b, calls, [])
  | pop_102 b =>
      t <- load_top ;;
      if t >? SizeT.sub b 1 then ret (pop_104 b t, calls, [])
      else ret (pop_107 b t, calls, [])
  | pop_104 b t =>
      store_bottom b ;;;
      ret (owner_idle, calls, [pop_returned None])
  | pop_107 b t =>
      c <- get_capacity ;;
      val <- buffer_read (SizeT.and (SizeT.sub b 1) (SizeT.sub c 1)) ;;
      if negb (t =? SizeT.sub b 1)
      then ret (owner_idle, calls, [pop_returned (Some val)])
      else ret (pop_112 b t val, calls, [])
  | pop_112 b t val =>
      r <- top_compare_exchange_strong t (SizeT.add t 1) ;;
      ret (pop_114 b (fst r) val, calls, [])
  | pop_114 b popped val =>
      store_bottom b ;;;
      ret (owner_idle, calls,
           [pop_returned (if popped then Some val else None)])
  end.

(** One access of a thief.  An idle thief enters [steal]. *)
Definition thief_step (who : nat) (th : thief) : M (thief * list answer) :=
  match th with
  | thief_idle =>
      t <- load_top ;; ret (steal_123 t, [])
  | steal_123 t =>
      b <- load_bottom ;;
      if t >=? b then ret (thief_idle, [steal_returned who None])
      else ret (steal_130 t, [])
  | steal_130 t =>
      atomic_thread_fence ;;;
      b <- load_bottom ;;
      if t >=? b then ret (thief_idle, [steal_returned who None])
      else ret (steal_134 t, [])
  | steal_134 t =>
      c <- get_capacity ;;
      val <- buffer_read (SizeT.and t (SizeT.sub c 1)) ;;
      ret (steal_135 t val, [])
  | steal_135 t val =>
      r <- top_compare_exchange_strong t (SizeT.add t 1) ;;
      if fst r then ret (thief_idle, [steal_returned who (Some val)])
      else ret (steal_130 (snd r), [])
  end.

(** The queue, the threads that use it, and the calls that have returned,
    oldest first. *)
Record system : Type := MkSystem {
  shared : WorkStealingQueue T;
  the_owner : owner;
  program : list owner_call;
  thieves : list thief;
  returned : list answer
}.

(** The threads: the owner, and the thieves by their number. *)
Inductive thread : Type :=
| Owner
| Thief (who : nat).

(** The thread [th] makes its next access.  A thread that has nothing to
    do (the owner at the end of its program, a thief that does not exist)
    leaves the system as it is; [None] is a fault. *)
Definition schedule_step (th : thread) (s : system) : option system :=
  match th with
  | Owner =>
      match owner_step (the_owner s) (program s) (shared s) with
      | Ok (o', calls', evs) q' =>
          Some (MkSystem q' o' calls' (thieves s) (returned s ++ evs))
      | _ => None
      end
  | Thief who =>
      match thieves s !! who with
      | None => Some s
      | Some th =>
          match thief_step who th (shared s) with
          | Ok (th', evs) q' =>
              Some (MkSystem q' (the_owner s) (program s)
                      (<[who := th']> (thieves s)) (returned s ++ evs))
          | _ => None
          end
      end
  end.

(** The accesses of a schedule, one after the other. *)
Fixpoint run_schedule (sched : list thread) (s : system) : option system :=
  match sched with
  | [] => Some s
  | th :: sched' =>
      match schedule_step th s with
      | Some s' => run_schedule sched' s'
      | None => None
      end
  end.

(** The owner about to run [calls], together with [n] thieves, all between
    calls. *)
Definition start (q : WorkStealingQueue T) (calls : list owner_call)
    (n : nat) : system :=
  MkSystem q owner_idle calls (replicate n thief_idle) [].



(** *** What holds between two accesses *)










End Threads.

Arguments owner T : clear implicits.
Arguments thief T : clear implicits.
Arguments owner_call T : clear implicits.
Arguments answer T : clear implicits.
Arguments system T : clear implicits.


(** ** The context-switch primitive *)

(** [context.h] declares [bthread_make_fcontext] and
    [bthread_jump_fcontext]; their bodies are per-architecture assembly.
    The machine below is their contract: what a context is, what the first
    switch into one does, and what a later switch does.  The stack a
    context runs on, the registers and the floating-point state are not
    represented; [sp], [size] and [preserve_fpu] are carried and have no
    effect on the words that are transferred. *)

Module Context.

(** [intptr_t], and [bthread_fcontext_t], a [void*]: machine words. *)
Definition intptr_t : Type := Z.
Definition bthread_fcontext_t : Type := Z.
Definition address : Type := Z.

(** The code of a routine: the calls it makes, each with the code that
    runs once the call has returned the word it returns. *)
Inductive code : Type :=
| Finish
| bthread_make_fcontext (sp : address) (size : Z) (fn : intptr_t -> code)
    (rest : bthread_fcontext_t -> code)
| bthread_jump_fcontext (ofc : address) (nfc : bthread_fcontext_t)
    (vp : intptr_t) (preserve_fpu : bool) (rest : intptr_t -> code)
| Load (a : address) (rest : Z -> code)
| Store (a : address) (v : Z) (rest : code).

(** A context that is not running: made and never entered, or suspended
    inside a call of [bthread_jump_fcontext]. *)
Inductive context : Type :=
| Made (fn : intptr_t -> code)
| Suspended (rest : intptr_t -> code).

(** What the switches did, oldest first. *)
Inductive event : Type :=
| Entered (fc : bthread_fcontext_t) (arg : intptr_t)
| Resumed (fc : bthread_fcontext_t) (result : intptr_t).

Record machine : Type := MkMachine {
  memory : gmap Z Z;
  contexts : gmap Z context;
  minted : Z;
  history : list event
}.

(** Modelled from the spec: the bodies of [bthread_make_fcontext] and
    [bthread_jump_fcontext] are missing.  Making a context mints a handle
    such that the first switch into it transfers control to the entry
    routine, with the transferred word as its parameter.  A jump suspends
    the caller into a newly minted handle written to [*ofc] and resumes the
    target, which receives the transferred word: as the argument of its
    entry routine on the first resume, as the result of the jump it is
    suspended in on a later one.  A handle is spent once it is resumed;
    jumping to a handle that names no context has no defined behaviour. *)
Definition step (c : code) (m : machine) : option (code * machine) :=
  match c with
  | Finish => None
  | Load a rest =>
      match memory m !! a with
      | Some v => Some (rest v, m)
      | None => None
      end
  | Store a v rest =>
      Some (rest, MkMachine (<[a := v]> (memory m)) (contexts m) (minted m)
                            (history m))
  | bthread_make_fcontext sp size fn rest =>
      let fc := minted m in
      Some (rest fc,
            MkMachine (memory m) (<[fc := Made fn]> (contexts m)) (fc + 1)
                      (history m))
  | bthread_jump_fcontext ofc nfc vp preserve_fpu rest =>
      let fc := minted m in
      let saved := <[fc := Suspended rest]> (contexts m) in
      let mem := <[ofc := fc]> (memory m) in
      match saved !! nfc with
      | Some (Made fn) =>
          Some (fn vp,
                MkMachine mem (delete nfc saved) (fc + 1)
                          (history m ++ [Entered nfc vp]))
      | Some (Suspended rest') =>
          Some (rest' vp,
                MkMachine mem (delete nfc saved) (fc + 1)
                          (history m ++ [Resumed nfc vp]))
      | None => None
      end
  end.

(** [n] steps of the thread that runs [c]. *)
Fixpoint steps (n : nat) (c : code) (m : machine) : option (code * machine) :=
  match n with
  | O => Some (c, m)
  | S n' =>
      match step c m with
      | Some (c', m') => steps n' c' m'
      | None => None
      end
  end.

(** An entry routine that does nothing but jump back to the context that
    entered it, whose handle it finds in [caller_cell], with a word that
    may depend on the argument it received. *)
Definition bounce (caller_cell own_cell : address) (reply : intptr_t -> intptr_t)
    (preserve_fpu : bool) (rest : intptr_t -> code) : intptr_t -> code :=
  fun arg =>
    Load caller_cell (fun caller =>
      bthread_jump_fcontext own_cell caller (reply arg) preserve_fpu rest).

(** [fc] is a handle that [bthread_make_fcontext] returned for the entry
    routine [fn], and no jump has entered it yet. *)
Definition made (m : machine) (fc : bthread_fcontext_t)
    (fn : intptr_t -> code) : Prop :=
  contexts m !! fc = Some (Made fn) /\ fc < minted m.

(** A machine on which nothing has happened. *)
Definition blank : machine := MkMachine ∅ ∅ 0 [].

End Context.

(** ** The platform selection of [context.h] *)

Module ContextHeader.

(** The macros the header tests, as the compiler predefines them: [None]
    for a macro that is not defined, otherwise its value. *)
Record predefined : Type := MkPredefined {
  __GNUC__ : option Z;
  __APPLE__ : option Z;
  __linux__ : option Z;
  __x86_64__ : option Z;
  __i386__ : option Z;
  __arm__ : option Z;
  __aarch64__ : option Z;
  __loongarch64 : option Z;
  __MINGW32__ : option Z;
  __MINGW64__ : option Z;
  __MACH__ : option Z
}.

(** [defined(X)] and [#ifdef X]. *)
Definition defined (m : option Z) : bool :=
  match m with Some _ => true | None => false end.

(** [#if X] and [#elif X]: a macro that is not defined counts as 0. *)
Definition nonzero (m : option Z) : bool :=
  match m with Some v => negb (v =? 0) | None => false end.

Inductive platform : Type :=
| linux_x86_64 | linux_i386 | linux_arm32 | linux_arm64 | linux_loongarch64
| windows_x86_64 | windows_i386
| apple_i386 | apple_x86_64 | apple_arm64.

(** The two bodies [BTHREAD_CONTEXT_CALL_CONVENTION] is defined with. *)
Inductive convention : Type := empty_convention | __cdecl.

(** A [#define] of the header. *)
Inductive definition : Type :=
| BTHREAD_CONTEXT_COMPILER_gcc
| BTHREAD_CONTEXT_PLATFORM (p : platform)
| BTHREAD_CONTEXT_CALL_CONVENTION (c : convention).

(** The [#define]s that lines 24-71 execute, in order. *)
Definition header (e : predefined) : list definition :=
  if defined (__GNUC__ e) || defined (__APPLE__ e) then
    BTHREAD_CONTEXT_COMPILER_gcc ::
    (if defined (__linux__ e) then
       if defined (__x86_64__ e) then
         [BTHREAD_CONTEXT_PLATFORM linux_x86_64;
          BTHREAD_CONTEXT_CALL_CONVENTION empty_convention]
       else if nonzero (__i386__ e) then
         [BTHREAD_CONTEXT_PLATFORM linux_i386;
          BTHREAD_CONTEXT_CALL_CONVENTION empty_convention]
       else if nonzero (__arm__ e) then
         [BTHREAD_CONTEXT_PLATFORM linux_arm32;
          BTHREAD_CONTEXT_CALL_CONVENTION empty_convention]
       else if nonzero (__aarch64__ e) then
         [BTHREAD_CONTEXT_PLATFORM linux_arm64;
          BTHREAD_CONTEXT_CALL_CONVENTION empty_convention]
       else if nonzero (__loongarch64 e) then
         [BTHREAD_CONTEXT_PLATFORM linux_loongarch64;
          BTHREAD_CONTEXT_CALL_CONVENTION empty_convention]
       else []
     else if defined (__MINGW32__ e) || defined (__MINGW64__ e) then
       if defined (__x86_64__ e) then
         [BTHREAD_CONTEXT_COMPILER_gcc;
          BTHREAD_CONTEXT_PLATFORM windows_x86_64;
          BTHREAD_CONTEXT_CALL_CONVENTION empty_convention]
       else if defined (__i386__ e) then
         [BTHREAD_CONTEXT_COMPILER_gcc;
          BTHREAD_CONTEXT_PLATFORM windows_i386;
          BTHREAD_CONTEXT_CALL_CONVENTION __cdecl]
       else []
     else if defined (__APPLE__ e) && defined (__MACH__ e) then
       if defined (__i386__ e) then
         [BTHREAD_CONTEXT_PLATFORM apple_i386;
          BTHREAD_CONTEXT_CALL_CONVENTION empty_convention]
       else if defined (__x86_64__ e) then
         [BTHREAD_CONTEXT_PLATFORM apple_x86_64;
          BTHREAD_CONTEXT_CALL_CONVENTION empty_convention]
       else if defined (__aarch64__ e) then
         [BTHREAD_CONTEXT_PLATFORM apple_arm64;
          BTHREAD_CONTEXT_CALL_CONVENTION empty_convention]
       else []
     else [])
  else [].

(** The platforms and the calling conventions among a list of
    [#define]s. *)
Definition platforms (ds : list definition) : list platform :=
  omap (fun d => match d with
                 | BTHREAD_CONTEXT_PLATFORM p => Some p
                 | _ => None
                 end) ds.

Definition conventions (ds : list definition) : list convention :=
  omap (fun d => match d with
                 | BTHREAD_CONTEXT_CALL_CONVENTION c => Some c
                 | _ => None
                 end) ds.

End ContextHeader.

(** ** Concrete queues of integers *)

Module Examples.

(** A ring of four cells holding 7 and 8, pushed in this order after
    [init(4)]. *)
Definition two_items : WorkStealingQueue Z :=
  {| _bottom := 3; _capacity := 4; _buffer := Some [0; 7; 8; 0]; _top := 1 |}.

(** The queue right after [init(4)]. *)
Definition fresh : WorkStealingQueue Z :=
  {| _bottom := 1; _capacity := 4; _buffer := Some [0; 0; 0; 0]; _top := 1 |}.

(** An empty ring of four cells with both counters at [t]. *)
Definition ring (t : Z) : WorkStealingQueue Z :=
  {| _bottom := t; _capacity := 4; _buffer := Some [0; 0; 0; 0]; _top := t |}.

(** The empty ring whose counters have come within four of the end of
    [size_t]. *)
Definition worn_out : WorkStealingQueue Z := ring (SizeT.modulus - 4).

(** A ring of four cells holding 7 alone. *)
Definition one_item : WorkStealingQueue Z :=
  {| _bottom := 2; _capacity := 4; _buffer := Some [0; 7; 0; 0]; _top := 1 |}.

(** A ring of four cells holding 7, 8 and 9. *)
Definition three_items : WorkStealingQueue Z :=
  {| _bottom := 4; _capacity := 4; _buffer := Some [0; 7; 8; 9]; _top := 1 |}.

(** The greatest length of an array of 8-byte cells with g++ on a 64-bit
    target: [PTRDIFF_MAX / 8]. *)
Definition cells_limit : Z := (2 ^ 63 - 1) / 8.

(** A race for the only item.  The owner pushes 7; thief 0 reads it and
    stops before its compare-exchange; the owner runs [pop] up to its own
    compare-exchange; the thief exchanges, then the owner; thief 1 comes
    last. *)
Definition race : list thread :=
  [Owner; Owner; Owner; Owner;
   Thief 0; Thief 0; Thief 0; Thief 0;
   Owner; Owner; Owner; Owner; Owner;
   Thief 0; Owner; Owner; Thief 1; Thief 1].

(** The same with the owner's compare-exchange first. *)
Definition race_lost : list thread :=
  [Owner; Owner; Owner; Owner;
   Thief 0; Thief 0; Thief 0; Thief 0;
   Owner; Owner; Owner; Owner; Owner;
   Owner; Thief 0; Owner; Thief 0; Thief 1; Thief 1].

(** [n] times a push followed by a steal. *)
Fixpoint cycles (n : nat) : list (op Z) :=
  match n with
  | O => []
  | S n' => Push 0 :: Steal 0 0 :: cycles n'
  end.

End Examples.

(** ** Arithmetic facts used by the queue *)

Lemma modulus_eq : SizeT.modulus = 18446744073709551616.
Proof. reflexivity. Qed.

Lemma wrap_small (z : Z) : SizeT.in_range z -> SizeT.wrap z = z.
Proof. unfold SizeT.in_range, SizeT.wrap. intros H. apply Z.mod_small, H. Qed.

Lemma wrap_range (z : Z) : SizeT.in_range (SizeT.wrap z).
Proof.
  unfold SizeT.in_range, SizeT.wrap. apply Z.mod_pos_bound.
  rewrite modulus_eq. lia.
Qed.

(** The sum of two [size_t] either fits or loses exactly one modulus. *)
Lemma add_cases (a b : Z) :
  SizeT.in_range a -> SizeT.in_range b ->
  (a + b < SizeT.modulus /\ SizeT.add a b = a + b) \/
  (SizeT.modulus <= a + b /\ SizeT.add a b = a + b - SizeT.modulus).
Proof.
  unfold SizeT.in_range, SizeT.add, SizeT.wrap. intros Ha Hb.
  destruct (Z_lt_le_dec (a + b) SizeT.modulus) as [Hlt | Hge].
  - left. split; [exact Hlt |]. apply Z.mod_small. lia.
  - right. split; [exact Hge |].
    symmetry. apply (Z.mod_unique _ _ 1); lia.
Qed.

Lemma power_of_two_pos (c : Z) : power_of_two c -> 0 < c.
Proof. intros (k & Hk & ->). apply Z.pow_pos_nonneg; lia. Qed.

(** The test of [init]: [c & (c - 1)] vanishes exactly on powers of two. *)
Lemma land_pred_power_of_two (c : Z) :
  0 < c -> (Z.land c (c - 1) = 0 <-> power_of_two c).
Proof.
  intros Hc. split.
  - intros Hland.
    pose proof (Z.log2_spec c Hc) as [Hlo Hhi].
    pose proof (Z.log2_nonneg c) as Hk.
    exists (Z.log2 c). split; [exact Hk |].
    destruct (Z.eq_dec c (2 ^ Z.log2 c)) as [Heq | Hne]; [exact Heq |].
    exfalso.
    assert (Hlog : Z.log2 (c - 1) = Z.log2 c).
    { apply Z.log2_unique; [exact Hk |].
      replace (Z.succ (Z.log2 c)) with (Z.log2 c + 1) in Hhi by lia. lia. }
    assert (Hpos : 0 < c - 1).
    { assert (0 < 2 ^ Z.log2 c) by (apply Z.pow_pos_nonneg; lia). lia. }
    pose proof (Z.bit_log2 c Hc) as Hb1.
    pose proof (Z.bit_log2 (c - 1) Hpos) as Hb2.
    rewrite Hlog in Hb2.
    assert (Hb : Z.testbit (Z.land c (c - 1)) (Z.log2 c) = true).
    { rewrite Z.land_spec, Hb1, Hb2. reflexivity. }
    rewrite Hland, Z.bits_0 in Hb. discriminate.
  - intros (k & Hk & ->).
    replace (2 ^ k - 1) with (Z.ones k) by (rewrite Z.ones_equiv; lia).
    rewrite Z.land_ones by exact Hk. apply Z_mod_same_full.
Qed.

(** The index computation [i & (_capacity - 1)] is [i mod _capacity]. *)
Lemma mask_is_mod (c i : Z) :
  power_of_two c -> c < SizeT.modulus ->
  SizeT.and i (SizeT.sub c 1) = i mod c.
Proof.
  intros Hp Hc. pose proof (power_of_two_pos c Hp) as Hpos.
  unfold SizeT.and, SizeT.sub. rewrite wrap_small by (unfold SizeT.in_range; lia).
  destruct Hp as (k & Hk & ->).
  replace (2 ^ k - 1) with (Z.ones k) by (rewrite Z.ones_equiv; lia).
  apply Z.land_ones, Hk.
Qed.

(** ** States of the queue *)

Section QueueFacts.

Context {T : Type}.
Variable T_default : T.
Variable array_limit : Z.
Implicit Types (q : WorkStealingQueue T) (x val : T) (l : list T).

Lemma initialized_capacity_pos q : initialized q -> 0 < _capacity q.
Proof. intros (_ & _ & _ & Hp & _). apply power_of_two_pos, Hp. Qed.

(** Every index the code computes with the mask names a cell of the ring. *)
Lemma masked_index_in_ring q (i : Z) l :
  initialized q -> _buffer q = Some l ->
  SizeT.and i (SizeT.sub (_capacity q) 1) = i mod _capacity q /\
  (Z.to_nat (i mod _capacity q) < length l)%nat.
Proof.
  intros Hq Hl. pose proof (initialized_capacity_pos q Hq) as Hpos.
  destruct Hq as (_ & _ & Hc & Hp & l' & Hl' & Hlen).
  rewrite Hl in Hl'. injection Hl' as <-.
  split; [apply mask_is_mod; assumption |].
  pose proof (Z.mod_pos_bound i (_capacity q) Hpos). lia.
Qed.

(** *** [push] *)

Lemma push_full q x :
  _bottom q >= SizeT.add (_top q) (_capacity q) -> push x q = Ok false q.
Proof.
  intros H. unfold push, bind, load_bottom, load_top, get_capacity, ret.
  destruct (Z.geb_spec (_bottom q) (SizeT.add (_top q) (_capacity q)));
    [reflexivity | lia].
Qed.

Lemma push_ok q x :
  initialized q -> _bottom q < SizeT.add (_top q) (_capacity q) ->
  exists l, _buffer q = Some l /\
    (Z.to_nat (_bottom q mod _capacity q) < length l)%nat /\
    push x q = Ok true
      {| _bottom := _bottom q + 1; _capacity := _capacity q;
         _buffer := Some (<[Z.to_nat (_bottom q mod _capacity q) := x]> l);
         _top := _top q |}.
Proof.
  intros Hq Hlt.
  pose proof Hq as (Hb & Ht & Hc & Hp & l & Hl & Hlen).
  destruct (masked_index_in_ring q (_bottom q) l Hq Hl) as [Hmask Hidx].
  exists l. split; [exact Hl |]. split; [exact Hidx |].
  unfold push, bind, load_bottom, load_top, get_capacity, ret,
    buffer_write, store_bottom.
  destruct (Z.geb_spec (_bottom q) (SizeT.add (_top q) (_capacity q)));
    [lia |].
  rewrite Hl, Hmask. simpl.
  destruct (decide (Z.to_nat (_bottom q mod _capacity q) < length l)%nat);
    [| contradiction].
  simpl. f_equal. f_equal.
  unfold SizeT.add. apply wrap_small.
  pose proof (wrap_range (_top q + _capacity q)) as Hw.
  unfold SizeT.add in Hlt. unfold SizeT.in_range in *. lia.
Qed.

(** *** [pop] *)

Lemma pop_empty q val :
  _top q >= _bottom q -> pop val q = Ok (false, val) q.
Proof.
  intros H. unfold pop, bind, load_bottom, load_top, ret.
  destruct (Z.geb_spec (_top q) (_bottom q)); [reflexivity | lia].
Qed.

(** More than one item: the owner takes the newest one and gives up one
    position of [_bottom]. *)
Lemma pop_many q val :
  initialized q -> _top q < _bottom q - 1 ->
  exists x, slot q ((_bottom q - 1) mod _capacity q) = Some x /\
    pop val q = Ok (true, x)
      {| _bottom := _bottom q - 1; _capacity := _capacity q;
         _buffer := _buffer q; _top := _top q |}.
Proof.
  intros Hq Hlt.
  pose proof Hq as (Hb & Ht & Hc & Hp & l & Hl & Hlen).
  destruct (masked_index_in_ring q (_bottom q - 1) l Hq Hl) as [Hmask Hidx].
  destruct (lookup_lt_is_Some_2 l _ Hidx) as [x Hx].
  exists x. split; [unfold slot; rewrite Hl; exact Hx |].
  assert (Hnewb : SizeT.sub (_bottom q) 1 = _bottom q - 1).
  { apply wrap_small. unfold SizeT.in_range in *. lia. }
  unfold pop, bind, load_bottom, load_top, get_capacity, ret, store_bottom,
    atomic_thread_fence, buffer_read.
  destruct (Z.geb_spec (_top q) (_bottom q)); [lia |].
  simpl. rewrite Hnewb.
  destruct (Z.gtb_spec (_top q) (_bottom q - 1)); [lia |].
  cbn [_bottom _capacity _buffer _top].
  rewrite Hl, Hmask, Hx.
  destruct (Z.eqb_spec (_top q) (_bottom q - 1)); [lia |].
  reflexivity.
Qed.

(** Exactly one item: the owner wins the exchange on [_top], which moves
    up to the value [_bottom] had, and [_bottom] is put back. *)
Lemma pop_last q val :
  initialized q -> _top q = _bottom q - 1 ->
  exists x, slot q ((_bottom q - 1) mod _capacity q) = Some x /\
    pop val q = Ok (true, x)
      {| _bottom := _bottom q; _capacity := _capacity q;
         _buffer := _buffer q; _top := _top q + 1 |}.
Proof.
  intros Hq Heq.
  pose proof Hq as (Hb & Ht & Hc & Hp & l & Hl & Hlen).
  destruct (masked_index_in_ring q (_bottom q - 1) l Hq Hl) as [Hmask Hidx].
  destruct (lookup_lt_is_Some_2 l _ Hidx) as [x Hx].
  exists x. split; [unfold slot; rewrite Hl; exact Hx |].
  assert (Hnewb : SizeT.sub (_bottom q) 1 = _bottom q - 1).
  { apply wrap_small. unfold SizeT.in_range in *. lia. }
  assert (Hnewt : SizeT.add (_top q) 1 = _top q + 1).
  { apply wrap_small. unfold SizeT.in_range in *. lia. }
  unfold pop, bind, load_bottom, load_top, get_capacity, ret, store_bottom,
    atomic_thread_fence, buffer_read, top_compare_exchange_strong.
  destruct (Z.geb_spec (_top q) (_bottom q)); [lia |].
  simpl. rewrite Hnewb.
  destruct (Z.gtb_spec (_top q) (_bottom q - 1)); [lia |].
  cbn [_bottom _capacity _buffer _top].
  rewrite Hl, Hmask, Hx.
  destruct (Z.eqb_spec (_top q) (_bottom q - 1)); [| lia].
  cbn [_bottom _capacity _buffer _top negb].
  rewrite Z.eqb_refl, Hnewt. reflexivity.
Qed.

(** *** [steal] *)

Lemma steal_empty q val (fuel : nat) :
  _top q >= _bottom q -> steal fuel val q = Ok (false, val) q.
Proof.
  intros H. unfold steal, bind, load_bottom, load_top, ret.
  destruct (Z.geb_spec (_top q) (_bottom q)); [reflexivity | lia].
Qed.

(** With no other thread around, the first round of the loop wins the
    exchange: one round of fuel is enough, and more changes nothing. *)
Lemma steal_ok q val (fuel : nat) :
  initialized q -> _top q < _bottom q ->
  exists x, slot q (_top q mod _capacity q) = Some x /\
    steal (S fuel) val q = Ok (true, x)
      {| _bottom := _bottom q; _capacity := _capacity q;
         _buffer := _buffer q; _top := _top q + 1 |}.
Proof.
  intros Hq Hlt.
  pose proof Hq as (Hb & Ht & Hc & Hp & l & Hl & Hlen).
  destruct (masked_index_in_ring q (_top q) l Hq Hl) as [Hmask Hidx].
  destruct (lookup_lt_is_Some_2 l _ Hidx) as [x Hx].
  exists x. split; [unfold slot; rewrite Hl; exact Hx |].
  assert (Hnewt : SizeT.add (_top q) 1 = _top q + 1).
  { apply wrap_small. unfold SizeT.in_range in *. lia. }
  unfold steal, steal_loop, bind, load_bottom, load_top, get_capacity,
    atomic_thread_fence, ret, buffer_read, top_compare_exchange_strong.
  destruct (Z.geb_spec (_top q) (_bottom q)); [lia |].
  cbv beta iota.
  destruct (Z.geb_spec (_top q) (_bottom q)); [lia |].
  cbv beta. rewrite Hl, Hmask, Hx, Z.eqb_refl, Hnewt.
  cbn [fst]. congruence.
Qed.

(** *** [volatile_size] and [capacity] *)

Lemma volatile_size_eq q :
  SizeT.in_range (_bottom q) -> SizeT.in_range (_top q) ->
  volatile_size q = Ok (Z.max 0 (_bottom q - _top q)) q.
Proof.
  intros Hb Ht. unfold volatile_size, bind, load_bottom, load_top, ret.
  f_equal. destruct (Z.leb_spec (_bottom q) (_top q)); [lia |].
  unfold SizeT.sub. rewrite wrap_small by (unfold SizeT.in_range in *; lia).
  lia.
Qed.

(** *** The operations keep an initialized queue initialized *)

Lemma push_total q x :
  initialized q ->
  exists r q', push x q = Ok r q' /\ initialized q' /\
    _capacity q' = _capacity q /\ _top q' = _top q /\
    _bottom q' = (if r then _bottom q + 1 else _bottom q) /\
    (r = false <-> _bottom q >= SizeT.add (_top q) (_capacity q)).
Proof.
  intros Hq.
  destruct (Z_lt_ge_dec (_bottom q) (SizeT.add (_top q) (_capacity q)))
    as [Hlt | Hge].
  - destruct (push_ok q x Hq Hlt) as (l & Hl & Hidx & Hpush).
    eexists true, _. split; [exact Hpush |].
    pose proof (wrap_range (_top q + _capacity q)) as Hw.
    destruct Hq as (Hb & Ht & Hc & Hp & l' & Hl' & Hlen).
    rewrite Hl in Hl'. injection Hl' as <-.
    unfold initialized, SizeT.add, SizeT.in_range in *.
    cbn [_bottom _capacity _buffer _top].
    repeat split; try assumption; try discriminate; try lia.
    exists (<[Z.to_nat (_bottom q mod _capacity q) := x]> l).
    split; [reflexivity |]. rewrite length_insert. exact Hlen.
  - exists false, q. split; [apply push_full, Hge |].
    split; [exact Hq |]. repeat split; auto.
Qed.

Lemma pop_total q val :
  initialized q ->
  exists r q', pop val q = Ok r q' /\ initialized q' /\
    _capacity q' = _capacity q /\ _buffer q' = _buffer q /\
    ((_top q >= _bottom q /\ r = (false, val) /\ q' = q) \/
     (_top q < _bottom q - 1 /\ fst r = true /\
      _bottom q' = _bottom q - 1 /\ _top q' = _top q) \/
     (_top q = _bottom q - 1 /\ fst r = true /\
      _bottom q' = _bottom q /\ _top q' = _top q + 1)).
Proof.
  intros Hq.
  destruct (Z_lt_ge_dec (_top q) (_bottom q)) as [Hlt | Hge].
  - destruct (Z_lt_ge_dec (_top q) (_bottom q - 1)) as [Hlt' | Hge'].
    + destruct (pop_many q val Hq Hlt') as (x & Hx & Hpop).
      eexists (true, x), _. split; [exact Hpop |].
      destruct Hq as (Hb & Ht & Hc & Hp & Hl).
      unfold initialized, SizeT.in_range in *.
      cbn [_bottom _capacity _buffer _top fst].
      repeat split; try assumption; lia.
    + assert (Heq : _top q = _bottom q - 1) by lia.
      destruct (pop_last q val Hq Heq) as (x & Hx & Hpop).
      eexists (true, x), _. split; [exact Hpop |].
      destruct Hq as (Hb & Ht & Hc & Hp & Hl).
      unfold initialized, SizeT.in_range in *.
      cbn [_bottom _capacity _buffer _top fst].
      repeat split; try assumption; lia.
  - exists (false, val), q. split; [apply pop_empty, Hge |].
    split; [exact Hq |]. repeat split. left. repeat split. lia.
Qed.

Lemma steal_total q val (fuel : nat) :
  initialized q ->
  exists r q', steal (S fuel) val q = Ok r q' /\ initialized q' /\
    _capacity q' = _capacity q /\ _buffer q' = _buffer q /\
    _bottom q' = _bottom q /\
    ((_top q >= _bottom q /\ r = (false, val) /\ q' = q) \/
     (_top q < _bottom q /\ fst r = true /\ _top q' = _top q + 1)).
Proof.
  intros Hq.
  destruct (Z_lt_ge_dec (_top q) (_bottom q)) as [Hlt | Hge].
  - destruct (steal_ok q val fuel Hq Hlt) as (x & Hx & Hsteal).
    eexists (true, x), _. split; [exact Hsteal |].
    destruct Hq as (Hb & Ht & Hc & Hp & Hl).
    unfold initialized, SizeT.in_range in *.
    cbn [_bottom _capacity _buffer _top fst].
    repeat split; try assumption; lia.
  - exists (false, val), q. split; [apply steal_empty, Hge |].
    split; [exact Hq |]. repeat split. left. repeat split. lia.
Qed.

(** *** [init] *)

Lemma constructed_uninitialized : uninitialized (@constructed T).
Proof. unfold uninitialized, SizeT.in_range. rewrite modulus_eq. cbn. repeat split; lia. Qed.

Lemma init_already q heap_ok (cap : Z) :
  _capacity q <> 0 -> init T_default array_limit heap_ok cap q = Ok (-1) q.
Proof.
  intros H. unfold init, bind, get_capacity, ret.
  destruct (Z.eqb_spec (_capacity q) 0); [contradiction | reflexivity].
Qed.

Lemma init_zero q heap_ok : init T_default array_limit heap_ok 0 q = Ok (-1) q.
Proof.
  unfold init, bind, get_capacity, ret.
  destruct (Z.eqb_spec (_capacity q) 0); reflexivity.
Qed.

Lemma init_not_power q heap_ok (cap : Z) :
  SizeT.in_range cap -> ~ power_of_two cap ->
  init T_default array_limit heap_ok cap q = Ok (-1) q.
Proof.
  intros Hr Hnp. unfold init, bind, get_capacity, ret.
  destruct (Z.eqb_spec (_capacity q) 0); [| reflexivity]. cbn [negb].
  destruct (Z.eqb_spec cap 0); [reflexivity |].
  unfold SizeT.and, SizeT.sub.
  rewrite wrap_small by (unfold SizeT.in_range in *; lia).
  destruct (Z.eqb_spec (Z.land cap (cap - 1)) 0) as [Hz | Hnz];
    [| reflexivity].
  exfalso. apply Hnp. apply land_pred_power_of_two; [| exact Hz].
  unfold SizeT.in_range in Hr. lia.
Qed.

Lemma init_no_memory q (cap : Z) :
  uninitialized q -> cap <= array_limit ->
  init T_default array_limit false cap q = Ok (-1) q.
Proof.
  intros (Hb & Ht & Hc & Hbuf) Hfit.
  destruct q as [b c buf t]. cbn [_capacity _buffer] in Hc, Hbuf. subst c buf.
  unfold init, bind, get_capacity, ret, set_buffer, get_buffer, new_nothrow.
  cbn [_bottom _capacity _buffer _top Z.eqb negb].
  destruct (cap =? 0); [reflexivity |].
  destruct (negb _); [reflexivity |].
  destruct (Z.ltb_spec array_limit cap); [lia | reflexivity].
Qed.

(** A request beyond the limit: the new-expression throws, and [init] is
    left before it has assigned any member. *)
Lemma init_too_long q heap_ok (cap : Z) :
  _capacity q = 0 -> SizeT.in_range cap -> power_of_two cap ->
  array_limit < cap ->
  init T_default array_limit heap_ok cap q = Thrown bad_array_new_length q.
Proof.
  intros Hc Hr Hp Hlong.
  pose proof (power_of_two_pos cap Hp) as Hpos.
  unfold init, bind, get_capacity, ret, new_nothrow.
  rewrite Hc. cbn [Z.eqb negb].
  destruct (Z.eqb_spec cap 0); [lia |].
  unfold SizeT.and, SizeT.sub.
  rewrite wrap_small by (unfold SizeT.in_range in *; lia).
  destruct (Z.eqb_spec (Z.land cap (cap - 1)) 0) as [Hz | Hnz].
  - cbn [negb]. destruct (Z.ltb_spec array_limit cap); [reflexivity | lia].
  - exfalso. apply Hnz. apply land_pred_power_of_two; assumption.
Qed.

Lemma init_success q (cap : Z) :
  uninitialized q -> SizeT.in_range cap -> power_of_two cap ->
  cap <= array_limit ->
  init T_default array_limit true cap q =
    Ok 0 {| _bottom := _bottom q; _capacity := cap;
            _buffer := Some (replicate (Z.to_nat cap) T_default);
            _top := _top q |}.
Proof.
  intros (Hb & Ht & Hc & Hbuf) Hr Hp Hfit.
  pose proof (power_of_two_pos cap Hp) as Hpos.
  unfold init, bind, get_capacity, ret, set_buffer, get_buffer, new_nothrow,
    set_capacity.
  rewrite Hc. cbn [Z.eqb negb].
  destruct (Z.eqb_spec cap 0); [lia |].
  unfold SizeT.and, SizeT.sub.
  rewrite wrap_small by (unfold SizeT.in_range in *; lia).
  destruct (Z.eqb_spec (Z.land cap (cap - 1)) 0) as [Hz | Hnz].
  - cbn [negb]. destruct (Z.ltb_spec array_limit cap); [lia | reflexivity].
  - exfalso. apply Hnz. apply land_pred_power_of_two; assumption.
Qed.

Lemma init_success_initialized q (cap : Z) :
  uninitialized q -> SizeT.in_range cap -> power_of_two cap ->
  initialized {| _bottom := _bottom q; _capacity := cap;
                 _buffer := Some (replicate (Z.to_nat cap) T_default);
                 _top := _top q |}.
Proof.
  intros (Hb & Ht & Hc & Hbuf) Hr Hp.
  unfold initialized. cbn [_bottom _capacity _buffer _top].
  rewrite Ht.
  repeat split; try apply Hb; try apply Hr; try exact Hp.
  eexists. split; [reflexivity |].
  rewrite length_replicate. unfold SizeT.in_range in Hr. lia.
Qed.

(** *** The two inequalities along a sequence of calls *)

(** A push that goes through never fills the ring beyond its capacity:
    on a state that satisfies the inequalities, the sum [t + _capacity]
    of the full-queue test has not wrapped around when the test lets the
    push through. *)
Lemma push_room q :
  initialized q -> invariant q ->
  _bottom q < SizeT.add (_top q) (_capacity q) ->
  _bottom q < _top q + _capacity q.
Proof.
  intros Hq [Hge Hle] Hlt.
  pose proof (initialized_capacity_pos q Hq) as Hpos.
  destruct Hq as (Hb & Ht & Hc & _).
  destruct (add_cases (_top q) (_capacity q)) as [[_ Heq] | [_ Heq]];
    [exact Ht | unfold SizeT.in_range; lia | |];
    rewrite Heq in Hlt; unfold SizeT.in_range in *; lia.
Qed.

(** One call: it returns, the queue stays initialized and within the two
    inequalities, the capacity stays, and the distance between the
    counters moves with the tally. *)
Lemma call_total q (o : op T) (n : tally) :
  initialized q -> invariant q ->
  exists flag q', call o q = Ok flag q' /\
    initialized q' /\ invariant q' /\ _capacity q' = _capacity q /\
    (_bottom q' - _top q') - (pushes_ok (count o flag n) - takes_ok (count o flag n))
      = (_bottom q - _top q) - (pushes_ok n - takes_ok n).
Proof.
  intros Hq Hinv. pose proof Hinv as [Hge Hle].
  destruct o as [x | val | extra val]; unfold call, bind, ret.
  - destruct (push_total q x Hq) as (r & q' & Hpush & Hq' & Hc' & Ht' & Hb' & Hr).
    exists r, q'. split; [exact Hpush |]. split; [exact Hq' |].
    unfold invariant. rewrite Hc', Ht', Hb'.
    destruct r; cbn [count pushes_ok takes_ok].
    + assert (Hlt : _bottom q < SizeT.add (_top q) (_capacity q)).
      { destruct (Z_lt_ge_dec (_bottom q) (SizeT.add (_top q) (_capacity q)))
          as [Hlt | Hge']; [exact Hlt |].
        apply Hr in Hge'. discriminate. }
      pose proof (push_room q Hq Hinv Hlt). repeat split; lia.
    + repeat split; lia.
  - destruct (pop_total q val Hq) as (r & q' & Hpop & Hq' & Hc' & _ & Hcases).
    rewrite Hpop. exists (fst r), q'. split; [reflexivity |].
    split; [exact Hq' |]. unfold invariant. rewrite Hc'.
    destruct Hcases as [(Hemp & -> & ->) | [(Hmany & Hr & Hb' & Ht') | (Hone & Hr & Hb' & Ht')]].
    + cbn [fst count]. repeat split; lia.
    + rewrite Hr, Hb', Ht'. cbn [count pushes_ok takes_ok]. repeat split; lia.
    + rewrite Hr, Hb', Ht'. cbn [count pushes_ok takes_ok]. repeat split; lia.
  - destruct (steal_total q val extra Hq)
      as (r & q' & Hsteal & Hq' & Hc' & _ & Hb' & Hcases).
    rewrite Hsteal. exists (fst r), q'. split; [reflexivity |].
    split; [exact Hq' |]. unfold invariant. rewrite Hc', Hb'.
    destruct Hcases as [(Hemp & -> & ->) | (Hsome & Hr & Ht')].
    + cbn [fst count]. repeat split; lia.
    + rewrite Hr, Ht'. cbn [count pushes_ok takes_ok]. repeat split; lia.
Qed.

(** A whole sequence, by induction on it. *)
Lemma run_total (ops : list (op T)) : forall q (n : tally),
  initialized q -> invariant q ->
  exists n' q', run ops n q = Ok n' q' /\
    initialized q' /\ invariant q' /\ _capacity q' = _capacity q /\
    (_bottom q' - _top q') - (pushes_ok n' - takes_ok n')
      = (_bottom q - _top q) - (pushes_ok n - takes_ok n).
Proof.
  induction ops as [| o ops IH]; intros q n Hq Hinv.
  - exists n, q. cbn [run]. unfold ret. auto.
  - destruct (call_total q o n Hq Hinv)
      as (flag & q1 & Hcall & Hq1 & Hinv1 & Hc1 & Hd1).
    destruct (IH q1 (count o flag n) Hq1 Hinv1)
      as (n' & q' & Hrun & Hq' & Hinv' & Hc' & Hd').
    exists n', q'. cbn [run]. unfold bind. rewrite Hcall.
    split; [exact Hrun |]. split; [exact Hq' |]. split; [exact Hinv' |].
    split; [congruence | lia].
Qed.

(** *** The cells of the ring around a push *)

Lemma slot_after_write q l (i j : Z) x :
  _buffer q = Some l -> 0 <= i -> 0 <= j ->
  (Z.to_nat i < length l)%nat ->
  slot {| _bottom := _bottom q + 1; _capacity := _capacity q;
          _buffer := Some (<[Z.to_nat i := x]> l); _top := _top q |} j
  = if decide (j = i) then Some x else slot q j.
Proof.
  intros Hl Hi Hj Hlt. unfold slot. cbn [_buffer]. rewrite Hl.
  destruct (decide (j = i)) as [-> | Hne].
  - apply list_lookup_insert_eq, Hlt.
  - apply list_lookup_insert_ne. intros Heq. apply Hne.
    apply Z2Nat.inj in Heq; lia.
Qed.

(** Two consecutive counters never share a cell of a ring of two or more
    cells. *)
Lemma consecutive_cells_differ (b c : Z) :
  2 <= c -> (b + 1) mod c <> b mod c.
Proof.
  intros Hc Heq.
  assert (H1 : ((b + 1) - b) mod c = 0).
  { rewrite Zminus_mod, Heq, Z.sub_diag. apply Z.mod_0_l. lia. }
  replace (b + 1 - b) with 1 in H1 by lia.
  rewrite Z.mod_small in H1; lia.
Qed.

(** ** The operations, one call at a time *)

(** C1.  On an initialized queue run by one thread, [pop] has three
    outcomes.  When the queue is empty ([_top >= _bottom]) it returns false
    and changes neither [_bottom], nor [_top], nor the ring, nor the cell it
    was given.  When more than one item is present it returns true with the
    item of cell [(_bottom - 1) mod _capacity], and [_bottom] goes down by
    one.  When exactly one item is present it returns true with that item,
    [_top] goes up by one and [_bottom] is back at its value before the
    call, so that the queue ends empty: [volatile_size] is 0 and a further
    [pop] finds nothing. *)
Theorem pop_sequential q val :
  initialized q ->
  (_top q >= _bottom q -> pop val q = Ok (false, val) q) /\
  (_bottom q - _top q > 1 ->
     exists x, slot q ((_bottom q - 1) mod _capacity q) = Some x /\
       pop val q = Ok (true, x)
         {| _bottom := _bottom q - 1; _capacity := _capacity q;
            _buffer := _buffer q; _top := _top q |}) /\
  (_bottom q - _top q = 1 ->
     exists x q', slot q ((_bottom q - 1) mod _capacity q) = Some x /\
       pop val q = Ok (true, x) q' /\
       q' = {| _bottom := _bottom q; _capacity := _capacity q;
               _buffer := _buffer q; _top := _top q + 1 |} /\
       volatile_size q' = Ok 0 q' /\
       pop val q' = Ok (false, val) q').
Proof.
  intros Hq. split; [| split].
  - apply pop_empty.
  - intros Hmany. apply pop_many; [exact Hq | lia].
  - intros Hone.
    destruct (pop_last q val Hq) as (x & Hx & Hpop); [lia |].
    eexists x, _. split; [exact Hx |]. split; [exact Hpop |].
    split; [reflexivity |].
    destruct Hq as (Hb & Ht & _).
    split.
    + rewrite volatile_size_eq; cbn [_bottom _top];
        [f_equal; lia | exact Hb | unfold SizeT.in_range in *; lia].
    + apply pop_empty. cbn [_bottom _top]. lia.
Qed.

(** C2, as the code has it.  On an initialized queue, [push x] returns
    false and changes neither [_bottom], nor [_top], nor any cell of the
    ring when [_bottom >= _top + _capacity] (the queue is full).  Otherwise,
    provided the counters are below the wrap-around of the full-queue test
    ([_top + _capacity < 2^64]), it returns true, cell
    [_bottom mod _capacity] holds [x], [_bottom] is one more, and [_top],
    the capacity and every other cell are as before. *)
Theorem push_spec q x :
  initialized q ->
  (_bottom q >= _top q + _capacity q -> push x q = Ok false q) /\
  (_top q + _capacity q < SizeT.modulus ->
   _bottom q < _top q + _capacity q ->
     exists q', push x q = Ok true q' /\
       _bottom q' = _bottom q + 1 /\ _top q' = _top q /\
       _capacity q' = _capacity q /\
       slot q' (_bottom q mod _capacity q) = Some x /\
       forall i, 0 <= i -> i <> _bottom q mod _capacity q ->
         slot q' i = slot q i).
Proof.
  intros Hq.
  assert (Hsum : _top q + _capacity q < SizeT.modulus ->
            SizeT.add (_top q) (_capacity q) = _top q + _capacity q).
  { intros Hfit. destruct Hq as (_ & Ht & _ & Hp & _).
    apply power_of_two_pos in Hp.
    apply wrap_small. unfold SizeT.in_range in *. lia. }
  split.
  - intros Hfull. apply push_full.
    destruct Hq as (Hb & _). unfold SizeT.in_range in Hb.
    rewrite Hsum; lia.
  - intros Hfit Hlt. rewrite <- (Hsum Hfit) in Hlt.
    destruct (push_ok q x Hq Hlt) as (l & Hl & Hidx & Hpush).
    pose proof (initialized_capacity_pos q Hq) as Hpos.
    pose proof (Z.mod_pos_bound (_bottom q) (_capacity q) Hpos) as Hmod.
    eexists. split; [exact Hpush |]. cbn [_bottom _capacity _top].
    repeat split.
    + rewrite (slot_after_write q l) by (assumption || lia).
      destruct (decide _); [reflexivity | contradiction].
    + intros i Hi Hne.
      rewrite (slot_after_write q l) by (assumption || lia).
      destruct (decide _); [contradiction | reflexivity].
Qed.

(** C10.  On a queue that was constructed and never initialized (capacity
    0, both counters 1, null ring) [push], [pop] and [steal] return false,
    [volatile_size] returns 0, and the object is as before.  None of them
    touches the ring: with the null pointer in [_buffer] any read or write of
    a cell is a fault, and none of the four calls faults. *)
Theorem never_initialized_is_inert x val (rounds : nat) (i : Z) :
  _capacity (@constructed T) = 0 /\
  _bottom (@constructed T) = 1 /\ _top (@constructed T) = 1 /\
  _buffer (@constructed T) = None /\
  push x constructed = Ok false constructed /\
  pop val constructed = Ok (false, val) constructed /\
  steal rounds val constructed = Ok (false, val) constructed /\
  volatile_size (@constructed T) = Ok 0 constructed /\
  buffer_read i (@constructed T) = Fault NullBuffer /\
  buffer_write i x constructed = Fault NullBuffer.
Proof. repeat split. Qed.

(** The ways [init] goes on a queue that is not yet initialized. *)
Lemma init_cases q heap_ok (cap : Z) :
  SizeT.in_range cap -> uninitialized q ->
  (init T_default array_limit heap_ok cap q = Ok (-1) q /\
   (cap = 0 \/ ~ power_of_two cap \/
    (cap <= array_limit /\ heap_ok = false))) \/
  (init T_default array_limit heap_ok cap q = Thrown bad_array_new_length q /\
   power_of_two cap /\ array_limit < cap) \/
  (init T_default array_limit heap_ok cap q =
     Ok 0 {| _bottom := _bottom q; _capacity := cap;
             _buffer := Some (replicate (Z.to_nat cap) T_default);
             _top := _top q |} /\
   power_of_two cap /\ cap <= array_limit /\ heap_ok = true).
Proof.
  intros Hr Hun.
  destruct (Z.eq_dec cap 0) as [-> | Hcap].
  { left. rewrite init_zero. auto. }
  destruct (Z.eq_dec (Z.land cap (cap - 1)) 0) as [Hz | Hnz].
  2:{ assert (Hnp : ~ power_of_two cap).
      { intros Hp. apply Hnz. apply land_pred_power_of_two; [| exact Hp].
        unfold SizeT.in_range in Hr. lia. }
      left. rewrite init_not_power by assumption. auto. }
  assert (Hp : power_of_two cap).
  { apply land_pred_power_of_two; [| exact Hz].
    unfold SizeT.in_range in Hr. lia. }
  destruct (Z_lt_le_dec array_limit cap) as [Hlong | Hfit].
  { right. left. rewrite init_too_long by (assumption || apply Hun). auto. }
  destruct heap_ok.
  - right. right. rewrite init_success by assumption. auto.
  - left. rewrite init_no_memory by assumption. auto.
Qed.

Lemma init_success_invariant q (cap : Z) :
  uninitialized q -> power_of_two cap ->
  invariant {| _bottom := _bottom q; _capacity := cap;
               _buffer := Some (replicate (Z.to_nat cap) T_default);
               _top := _top q |}.
Proof.
  intros (_ & Ht & _) Hp. apply power_of_two_pos in Hp.
  unfold invariant. cbn [_bottom _capacity _top]. lia.
Qed.

(** ** Initialization *)

(** C4, as the code has it.  On a queue that is either not yet initialized
    or initialized, and for a capacity that is a [size_t], [init] ends in
    one of three ways.  It is left by the exception
    [std::bad_array_new_length] exactly when the queue is not initialized
    yet and the capacity asked for is a power of two that exceeds the
    greatest length the implementation allows for an array of [T]; the
    object is then unchanged.  In every other case it returns -1 or 0.  It
    returns -1 exactly when the queue is already initialized
    ([_capacity != 0]), or the capacity asked for is 0, or it is not a power
    of two, or the allocation of the ring yields the null pointer.
    Whenever it returns -1 the object is unchanged, so a second [init] on an
    initialized queue has no effect.  When it returns 0 the queue is
    initialized, and after any sequence of calls, and after any further
    [init], [capacity()] returns the capacity that was asked for. *)
Theorem init_spec q heap_ok (cap : Z) :
  SizeT.in_range cap ->
  uninitialized q \/ (initialized q /\ invariant q) ->
  (_capacity q = 0 /\ power_of_two cap /\ array_limit < cap ->
     init T_default array_limit heap_ok cap q =
       Thrown bad_array_new_length q) /\
  (~ (_capacity q = 0 /\ power_of_two cap /\ array_limit < cap) ->
     exists r q', init T_default array_limit heap_ok cap q = Ok r q' /\
       (r = -1 \/ r = 0) /\
       (r = -1 <->
          (_capacity q <> 0 \/ cap = 0 \/ ~ power_of_two cap \/
           heap_ok = false)) /\
       (r = -1 -> q' = q) /\
       (r = 0 ->
          initialized q' /\ invariant q' /\
          capacity q' = Ok cap q' /\
          (forall heap_ok' cap',
             init T_default array_limit heap_ok' cap' q' = Ok (-1) q') /\
          (forall ops n, exists n' q'',
             run ops n q' = Ok n' q'' /\ capacity q'' = Ok cap q''))).
Proof.
  intros Hr Hstate.
  destruct (Z.eq_dec (_capacity q) 0) as [Hc0 | Hc].
  2:{ split; [intros (H & _); contradiction |]. intros _.
      exists (-1), q. rewrite init_already by exact Hc.
      repeat split; auto; lia. }
  assert (Hun : uninitialized q).
  { destruct Hstate as [Hun | [Hq _]]; [exact Hun |].
    apply initialized_capacity_pos in Hq. lia. }
  destruct (init_cases q heap_ok cap Hr Hun)
    as [[Hinit Hwhy] | [(Hinit & Hp & Hlong) | (Hinit & Hp & Hfit & ->)]].
  - split.
    { intros (_ & Hp & Hlong).
      destruct Hwhy as [H | [H | [H _]]];
        [pose proof (power_of_two_pos cap Hp); lia | contradiction | lia]. }
    intros _. rewrite Hinit. exists (-1), q.
    destruct Hwhy as [H | [H | [_ H]]]; repeat split; auto; lia.
  - split; [intros _; exact Hinit |].
    intros Hno. exfalso. apply Hno. auto.
  - split; [intros (_ & _ & Hlong); lia |]. intros _. rewrite Hinit.
    eexists 0, _. split; [reflexivity |]. split; [right; reflexivity |].
    split.
    { split; [discriminate |].
      intros [H | [H | [H | H]]]; [contradiction | | | discriminate].
      - pose proof (power_of_two_pos cap Hp). lia.
      - exfalso. apply H, Hp. }
    split; [discriminate |]. intros _.
    pose proof (init_success_initialized q cap Hun Hr Hp) as Hq'.
    pose proof (init_success_invariant q cap Hun Hp) as Hinv'.
    pose proof (power_of_two_pos cap Hp) as Hpos.
    split; [exact Hq' |]. split; [exact Hinv' |]. split; [reflexivity |].
    split.
    + intros heap_ok' cap'. apply init_already. cbn [_capacity]. lia.
    + intros ops n.
      destruct (run_total ops _ n Hq' Hinv') as (n' & q'' & Hrun & _ & _ & Hc'' & _).
      exists n', q''. split; [exact Hrun |].
      unfold capacity, get_capacity. rewrite Hc''. reflexivity.
Qed.

(** ** Sequences of calls *)

(** C5.  Whatever the two counters hold, [volatile_size()] returns
    [max(0, _bottom - _top)].  On an initialized queue within the two
    inequalities, every sequence of calls of [push], [pop] and [steal] by
    one thread runs to its end, and [volatile_size()] after it is its value
    before plus the number of pushes that returned true minus the number of
    pops and steals that returned true; on a queue that was empty before
    the sequence it is that difference itself.  So it is for every sequence
    of calls on the queue that a successful [init] leaves behind the
    constructor.  All this holds whether or not a push of the sequence
    fails. *)
Theorem volatile_size_counts :
  (forall q, SizeT.in_range (_bottom q) -> SizeT.in_range (_top q) ->
     volatile_size q = Ok (Z.max 0 (_bottom q - _top q)) q) /\
  (forall q (ops : list (op T)), initialized q -> invariant q ->
     exists n q', run ops (MkTally 0 0 0) q = Ok n q' /\
       volatile_size q' =
         Ok (Z.max 0 (_bottom q - _top q) + pushes_ok n - takes_ok n) q' /\
       (_bottom q = _top q ->
          volatile_size q' = Ok (pushes_ok n - takes_ok n) q')) /\
  (forall heap_ok (cap : Z) q0 (ops : list (op T)),
     SizeT.in_range cap ->
     init T_default array_limit heap_ok cap constructed = Ok 0 q0 ->
     exists n q', run ops (MkTally 0 0 0) q0 = Ok n q' /\
       volatile_size q' = Ok (pushes_ok n - takes_ok n) q').
Proof.
  assert (Hgen : forall q (ops : list (op T)), initialized q -> invariant q ->
     exists n q', run ops (MkTally 0 0 0) q = Ok n q' /\
       volatile_size q' =
         Ok (Z.max 0 (_bottom q - _top q) + pushes_ok n - takes_ok n) q' /\
       (_bottom q = _top q ->
          volatile_size q' = Ok (pushes_ok n - takes_ok n) q')).
  { intros q ops Hq Hinv.
    destruct (run_total ops q (MkTally 0 0 0) Hq Hinv)
      as (n & q' & Hrun & Hq' & [Hge' Hle'] & _ & Hd).
    cbn [pushes_ok takes_ok] in Hd. destruct Hinv as [Hge Hle].
    exists n, q'. split; [exact Hrun |].
    assert (Hsize : volatile_size q' = Ok (Z.max 0 (_bottom q' - _top q')) q')
      by (apply volatile_size_eq; apply Hq').
    split.
    - rewrite Hsize. f_equal. lia.
    - intros Hempty. rewrite Hsize. f_equal. lia. }
  split; [exact volatile_size_eq |]. split; [exact Hgen |].
  intros heap_ok cap q0 ops Hr Hinit.
  pose proof constructed_uninitialized as Hun.
  destruct (init_cases constructed heap_ok cap Hr Hun)
    as [[Hinit' _] | [[Hinit' _] | (Hinit' & Hp & _)]];
    rewrite Hinit in Hinit'; [discriminate | discriminate |].
  injection Hinit' as ->.
  destruct (Hgen _ ops (init_success_initialized constructed cap Hun Hr Hp)
                      (init_success_invariant constructed cap Hun Hp))
    as (n & q' & Hrun & _ & Hempty).
  exists n, q'. split; [exact Hrun |]. apply Hempty. reflexivity.
Qed.

(** C6.  The two inequalities [_bottom >= _top] and
    [_bottom - _top <= _capacity] hold in the state a successful [init]
    leaves behind the constructor, and each call of [push], [pop] or [steal]
    on an initialized queue that satisfies them returns and leaves a queue
    that satisfies them. *)
Theorem invariant_preserved :
  (forall heap_ok (cap : Z) q0,
     SizeT.in_range cap ->
     init T_default array_limit heap_ok cap constructed = Ok 0 q0 ->
     initialized q0 /\ invariant q0) /\
  (forall q, initialized q -> invariant q ->
     (forall x, exists r q',
        push x q = Ok r q' /\ initialized q' /\ invariant q') /\
     (forall val, exists r q',
        pop val q = Ok r q' /\ initialized q' /\ invariant q') /\
     (forall (extra : nat) val, exists r q',
        steal (S extra) val q = Ok r q' /\ initialized q' /\ invariant q')).
Proof.
  split.
  - intros heap_ok cap q0 Hr Hinit.
    pose proof constructed_uninitialized as Hun.
    destruct (init_cases constructed heap_ok cap Hr Hun)
      as [[Hinit' _] | [[Hinit' _] | (Hinit' & Hp & _)]];
      rewrite Hinit in Hinit'; [discriminate | discriminate |].
    injection Hinit' as ->. split.
    + apply (init_success_initialized constructed); assumption.
    + apply (init_success_invariant constructed); assumption.
  - intros q Hq Hinv. split; [| split].
    + intros x.
      destruct (call_total q (Push x) (MkTally 0 0 0) Hq Hinv)
        as (r & q' & Hcall & Hq' & Hinv' & _).
      exists r, q'. cbn [call] in Hcall. auto.
    + intros val.
      destruct (pop_total q val Hq) as (r & q' & Hpop & _).
      destruct (call_total q (Pop val) (MkTally 0 0 0) Hq Hinv)
        as (r' & q'' & Hcall & Hq' & Hinv' & _).
      unfold call, bind, ret in Hcall. rewrite Hpop in Hcall.
      injection Hcall as _ <-. exists r, q'. auto.
    + intros extra val.
      destruct (steal_total q val extra Hq) as (r & q' & Hsteal & _).
      destruct (call_total q (Steal extra val) (MkTally 0 0 0) Hq Hinv)
        as (r' & q'' & Hcall & Hq' & Hinv' & _).
      unfold call, bind, ret in Hcall. rewrite Hsteal in Hcall.
      injection Hcall as _ <-. exists r, q'. auto.
Qed.

(** ** The counters *)

(** C7, as the code has it.  On an initialized queue every call of
    [push], [pop] or [steal] returns, and [_top] after the call is at least
    [_top] before it.  [_bottom] after a [push] or a [steal] is at least
    [_bottom] before it.  A [pop] leaves [_bottom] where it was when the
    queue holds at most one item, and lowers it by one when it takes an
    item while more than one is present. *)
Theorem counters_move q :
  initialized q ->
  (forall x, exists r q',
     push x q = Ok r q' /\ _bottom q' >= _bottom q /\ _top q' >= _top q) /\
  (forall (extra : nat) val, exists r q',
     steal (S extra) val q = Ok r q' /\
     _bottom q' >= _bottom q /\ _top q' >= _top q) /\
  (forall val, exists r q',
     pop val q = Ok r q' /\ _top q' >= _top q /\
     (_bottom q - _top q <= 1 -> _bottom q' = _bottom q) /\
     (_bottom q - _top q > 1 -> _bottom q' = _bottom q - 1)).
Proof.
  intros Hq. split; [| split].
  - intros x.
    destruct (push_total q x Hq) as (r & q' & Hpush & _ & _ & Ht' & Hb' & _).
    exists r, q'. split; [exact Hpush |]. rewrite Ht', Hb'.
    destruct r; lia.
  - intros extra val.
    destruct (steal_total q val extra Hq)
      as (r & q' & Hsteal & _ & _ & _ & Hb' & Hcases).
    exists r, q'. split; [exact Hsteal |]. rewrite Hb'.
    destruct Hcases as [(_ & _ & ->) | (_ & _ & ->)]; lia.
  - intros val.
    destruct (pop_total q val Hq) as (r & q' & Hpop & _ & _ & _ & Hcases).
    exists r, q'. split; [exact Hpop |].
    destruct Hcases as [(? & _ & ->) | [(? & _ & -> & ->) | (? & _ & -> & ->)]];
      lia.
Qed.

(** ** The two ends of the queue *)

Lemma slot_same_buffer q q' (i : Z) :
  _buffer q' = _buffer q -> slot q' i = slot q i.
Proof. intros H. unfold slot. rewrite H. reflexivity. Qed.

(** Two pushes on an empty queue of two or more cells whose full-queue
    test does not wrap around: both go through, and the two items lie in
    the cells of [_top] and [_top + 1]. *)
Lemma two_pushes q a b :
  initialized q -> _bottom q = _top q -> 2 <= _capacity q ->
  _top q + _capacity q < SizeT.modulus ->
  exists q1 q2,
    push a q = Ok true q1 /\ push b q1 = Ok true q2 /\
    initialized q2 /\ _capacity q2 = _capacity q /\
    _top q2 = _top q /\ _bottom q2 = _top q + 2 /\
    slot q2 (_top q mod _capacity q) = Some a /\
    slot q2 ((_top q + 1) mod _capacity q) = Some b.
Proof.
  intros Hq Hempty Hc2 Hfit.
  pose proof Hq as (Hb & Ht & Hc & Hp & _).
  assert (Hadd : SizeT.add (_top q) (_capacity q) = _top q + _capacity q).
  { apply wrap_small. unfold SizeT.in_range in *. lia. }
  destruct (push_ok q a Hq) as (l & Hl & Hidx & Hpush1); [lia |].
  destruct (push_total q a Hq) as (r1 & q1 & Hpush1' & Hq1 & Hc1 & Ht1 & Hb1 & _).
  rewrite Hpush1 in Hpush1'. injection Hpush1' as <- <-.
  cbn [_bottom _capacity _top] in *.
  set (q1 := {| _bottom := _bottom q + 1; _capacity := _capacity q;
                _buffer := Some (<[Z.to_nat (_bottom q mod _capacity q) := a]> l);
                _top := _top q |}) in *.
  destruct (push_ok q1 b Hq1) as (l1 & Hl1 & Hidx1 & Hpush2);
    [subst q1; cbn [_bottom _capacity _top]; lia |].
  destruct (push_total q1 b Hq1) as (r2 & q2 & Hpush2' & Hq2 & Hc2' & Ht2 & Hb2 & _).
  rewrite Hpush2 in Hpush2'. injection Hpush2' as <- <-.
  exists q1. eexists. split; [exact Hpush1 |]. split; [exact Hpush2 |].
  split; [exact Hq2 |].
  assert (Hpos : 0 < _capacity q) by lia.
  pose proof (Z.mod_pos_bound (_top q) (_capacity q) Hpos) as Hm0.
  pose proof (Z.mod_pos_bound (_top q + 1) (_capacity q) Hpos) as Hm1.
  pose proof (consecutive_cells_differ (_top q) (_capacity q) Hc2) as Hne.
  subst q1. cbn [_bottom _capacity _top _buffer] in *.
  injection Hl1 as <-. rewrite Hempty in *.
  repeat split.
  - lia.
  - unfold slot. cbn [_buffer].
    rewrite list_lookup_insert_ne.
    + apply list_lookup_insert_eq, Hidx.
    + intros Heq. apply Z2Nat.inj in Heq; lia.
  - unfold slot. cbn [_buffer].
    apply list_lookup_insert_eq. exact Hidx1.
Qed.

(** What a [pop] and a [steal] find in a queue of exactly two items. *)
Lemma pop_of_two q a b val :
  initialized q -> _bottom q = _top q + 2 ->
  slot q (_top q mod _capacity q) = Some a ->
  slot q ((_top q + 1) mod _capacity q) = Some b ->
  exists q', pop val q = Ok (true, b) q' /\
    initialized q' /\ _bottom q' = _top q' + 1 /\
    _capacity q' = _capacity q /\
    slot q' (_top q' mod _capacity q') = Some a.
Proof.
  intros Hq Hb Ha Hbb.
  destruct (pop_many q val Hq) as (x & Hx & Hpop); [lia |].
  destruct (pop_total q val Hq) as (r & q' & Hpop' & Hq' & _).
  rewrite Hpop in Hpop'. injection Hpop' as <- <-.
  replace (_bottom q - 1) with (_top q + 1) in * by lia.
  rewrite Hbb in Hx. injection Hx as <-.
  eexists. split; [exact Hpop |]. split; [exact Hq' |].
  cbn [_bottom _capacity _top]. repeat split.
  rewrite <- Ha. apply slot_same_buffer. reflexivity.
Qed.

Lemma steal_of_two q a b val (extra : nat) :
  initialized q -> _bottom q = _top q + 2 ->
  slot q (_top q mod _capacity q) = Some a ->
  slot q ((_top q + 1) mod _capacity q) = Some b ->
  exists q', steal (S extra) val q = Ok (true, a) q' /\
    initialized q' /\ _bottom q' = _top q' + 1 /\
    _capacity q' = _capacity q /\
    slot q' (_top q' mod _capacity q') = Some b.
Proof.
  intros Hq Hb Ha Hbb.
  destruct (steal_ok q val extra Hq) as (x & Hx & Hsteal); [lia |].
  destruct (steal_total q val extra Hq) as (r & q' & Hsteal' & Hq' & _).
  rewrite Hsteal in Hsteal'. injection Hsteal' as <- <-.
  rewrite Ha in Hx. injection Hx as <-.
  eexists. split; [exact Hsteal |]. split; [exact Hq' |].
  cbn [_bottom _capacity _top]. repeat split; [lia |].
  rewrite <- Hbb. apply slot_same_buffer. reflexivity.
Qed.

Lemma one_item_left q x :
  initialized q -> _bottom q = _top q + 1 ->
  slot q (_top q mod _capacity q) = Some x ->
  holds_only q x.
Proof.
  intros Hq Hb Hx. split; [| split].
  - rewrite volatile_size_eq by apply Hq. f_equal. lia.
  - intros val. destruct (pop_last q val Hq) as (y & Hy & Hpop); [lia |].
    replace (_bottom q - 1) with (_top q) in Hy by lia.
    rewrite Hx in Hy. injection Hy as <-. eexists. exact Hpop.
  - intros extra val.
    destruct (steal_ok q val extra Hq) as (y & Hy & Hsteal); [lia |].
    rewrite Hx in Hy. injection Hy as <-. eexists. exact Hsteal.
Qed.

(** A power of two that fits a [size_t] is at most [2^63]. *)
Lemma power_of_two_bound (c : Z) :
  power_of_two c -> c < SizeT.modulus -> c <= 2 ^ 63.
Proof.
  intros (k & Hk & ->) Hlt. unfold SizeT.modulus, SizeT.bits in Hlt.
  apply Z.pow_lt_mono_r_iff in Hlt; [| lia | lia].
  apply Z.pow_le_mono_r; lia.
Qed.

Lemma two_ends_of_empty q a b val (extra : nat) :
  initialized q -> _bottom q = _top q -> 2 <= _capacity q ->
  _top q + _capacity q < SizeT.modulus ->
  two_ends q a b val extra.
Proof.
  intros Hq Hempty Hc2 Hfit.
  destruct (two_pushes q a b Hq Hempty Hc2 Hfit)
    as (q1 & q2 & Hp1 & Hp2 & Hq2 & Hcap & Ht2 & Hb2 & Ha & Hb).
  rewrite <- Ht2, <- Hcap in Ha, Hb. rewrite <- Ht2 in Hb2.
  exists q1, q2. split; [exact Hp1 |]. split; [exact Hp2 |]. split.
  - destruct (pop_of_two q2 a b val Hq2 Hb2 Ha Hb)
      as (q3 & Hpop & Hq3 & Hb3 & _ & Hs3).
    exists q3. split; [exact Hpop |]. apply one_item_left; assumption.
  - destruct (steal_of_two q2 a b val extra Hq2 Hb2 Ha Hb)
      as (q3 & Hsteal & Hq3 & Hb3 & _ & Hs3).
    exists q3. split; [exact Hsteal |]. apply one_item_left; assumption.
Qed.

(** C3, as the code has it.  Take an initialized queue that is empty
    ([_bottom = _top]), has a capacity of at least 2, and whose counters are
    below the point where the sum [_top + _capacity] of the full-queue test
    wraps around.  Then [push(a)] and [push(b)] both return true, and on the
    queue they leave, [pop] returns [b], the item pushed last, whereas
    [steal] returns [a], the item pushed first; in both cases the other item
    is what the queue still holds.  The queue that a successful [init] with
    a capacity of at least 2 leaves behind the constructor is such a
    queue. *)
Theorem lifo_and_fifo :
  (forall q a b val (extra : nat),
     initialized q -> _bottom q = _top q -> 2 <= _capacity q ->
     _top q + _capacity q < SizeT.modulus ->
     two_ends q a b val extra) /\
  (forall heap_ok (cap : Z) q0 a b val (extra : nat),
     SizeT.in_range cap -> 2 <= cap ->
     init T_default array_limit heap_ok cap constructed = Ok 0 q0 ->
     two_ends q0 a b val extra).
Proof.
  split; [exact two_ends_of_empty |].
  intros heap_ok cap q0 a b val extra Hr Hc2 Hinit.
  pose proof constructed_uninitialized as Hun.
  destruct (init_cases constructed heap_ok cap Hr Hun)
    as [[Hinit' _] | [[Hinit' _] | (Hinit' & Hp & _)]];
    rewrite Hinit in Hinit'; [discriminate | discriminate |].
  injection Hinit' as ->.
  apply two_ends_of_empty.
  - apply (init_success_initialized constructed); assumption.
  - reflexivity.
  - exact Hc2.
  - cbn [_top _capacity constructed].
    pose proof (power_of_two_bound cap Hp (proj2 Hr)) as Hle.
    rewrite modulus_eq. change (2 ^ 63) with 9223372036854775808 in Hle. lia.
Qed.

End QueueFacts.

(** ** Concrete queues of integers *)

Import Examples.

Lemma power_of_two_4 : power_of_two 4.
Proof. exists 2. split; [lia | reflexivity]. Defined.

Lemma power_of_two_8 : power_of_two 8.
Proof. exists 3. split; [lia | reflexivity]. Defined.

Lemma two_items_initialized : initialized two_items.
Proof.
  unfold initialized, SizeT.in_range. cbn [two_items _bottom _top _capacity _buffer].
  rewrite modulus_eq.
  repeat split; try lia; [apply power_of_two_4 |].
  eexists. split; reflexivity.
Defined.

Lemma fresh_initialized : initialized fresh.
Proof.
  unfold initialized, SizeT.in_range. cbn [fresh _bottom _top _capacity _buffer].
  rewrite modulus_eq.
  repeat split; try lia; [apply power_of_two_4 |].
  eexists. split; reflexivity.
Defined.

Lemma ring_initialized (t : Z) : SizeT.in_range t -> initialized (ring t).
Proof.
  intros Ht. unfold initialized. cbn [ring _bottom _top _capacity _buffer].
  split; [exact Ht |]. split; [exact Ht |].
  split; [rewrite modulus_eq; lia |]. split; [apply power_of_two_4 |].
  eexists. split; reflexivity.
Defined.

Lemma worn_out_initialized : initialized worn_out.
Proof.
  apply ring_initialized. unfold SizeT.in_range. rewrite modulus_eq. lia.
Defined.

Lemma two_items_invariant : invariant two_items.
Proof. unfold invariant. cbn. lia. Defined.

Lemma fresh_invariant : invariant fresh.
Proof. unfold invariant. cbn. lia. Defined.

Lemma worn_out_invariant : invariant worn_out.
Proof. unfold invariant, worn_out, ring. cbn [_bottom _top _capacity]. lia. Defined.

(** One push and one steal take the empty ring from [t] to [t + 1], as
    long as [t + 4] fits a [size_t]. *)
Lemma one_cycle (t : Z) (n : tally) :
  0 <= t -> t + 4 < SizeT.modulus ->
  exists n', forall rest,
    run (Push 0 :: Steal 0 0 :: rest) n (ring t) = run rest n' (ring (t + 1)).
Proof.
  intros Ht0 Hfit.
  assert (Hr : SizeT.in_range t) by (unfold SizeT.in_range; lia).
  pose proof (ring_initialized t Hr) as Hq.
  assert (Hadd : SizeT.add t 4 = t + 4).
  { apply wrap_small. unfold SizeT.in_range. lia. }
  destruct (push_ok (ring t) 0 Hq) as (l & Hl & Hidx & Hpush).
  { cbn [ring _bottom _top _capacity]. lia. }
  cbn [ring _bottom _top _capacity _buffer] in Hl, Hidx, Hpush.
  injection Hl as <-.
  assert (Hsame : <[Z.to_nat (t mod 4) := 0]> [0; 0; 0; 0] = [0; 0; 0; 0]).
  { apply list_insert_id.
    destruct (Z.to_nat (t mod 4)) as [| [| [| [| k]]]];
      [reflexivity .. | cbn [length] in Hidx; lia]. }
  rewrite Hsame in Hpush. fold (ring t) in Hpush.
  set (q1 := {| _bottom := t + 1; _capacity := 4;
                _buffer := Some [0; 0; 0; 0]; _top := t |}) in *.
  assert (Hq1 : initialized q1).
  { destruct Hq as (_ & _ & Hc & Hp & Hbuf). unfold initialized.
    subst q1. cbn [_bottom _top _capacity _buffer] in *.
    unfold SizeT.in_range in *. repeat split; try assumption; lia. }
  destruct (steal_ok q1 0 0%nat Hq1) as (x & Hx & Hsteal).
  { subst q1. cbn [_bottom _top]. lia. }
  subst q1. cbn [_bottom _top _capacity _buffer] in Hsteal.
  fold (ring (t + 1)) in Hsteal.
  eexists. intros rest.
  cbn [run call]. unfold bind at 1. rewrite Hpush.
  cbn [run call]. unfold bind at 1. unfold bind at 1. rewrite Hsteal.
  unfold ret. reflexivity.
Qed.

Lemma cycles_run (k : nat) : forall (t : Z) (n : tally),
  0 <= t -> t + Z.of_nat k + 4 <= SizeT.modulus ->
  exists n', run (cycles k) n (ring t) = Ok n' (ring (t + Z.of_nat k)).
Proof.
  induction k as [| k IH]; intros t n Ht0 Hfit.
  - exists n. cbn [cycles run]. unfold ret. f_equal. f_equal. lia.
  - destruct (one_cycle t n Ht0) as [n1 Hstep]; [lia |].
    destruct (IH (t + 1) n1) as [n' Hrun]; [lia | lia |].
    exists n'. cbn [cycles]. rewrite Hstep, Hrun. f_equal. f_equal. lia.
Qed.

(** [worn_out] is a state of the queue that [init(4)] leaves: a long
    enough run of pushes and steals leads there. *)
Lemma worn_out_reachable :
  init 0 cells_limit true 4 constructed = Ok 0 (ring 1) /\
  exists ops n, run ops (MkTally 0 0 0) (ring 1) = Ok n worn_out.
Proof.
  split; [reflexivity |].
  assert (Hk : Z.of_nat (Z.to_nat (SizeT.modulus - 5)) = SizeT.modulus - 5).
  { apply Z2Nat.id. rewrite modulus_eq. lia. }
  destruct (cycles_run (Z.to_nat (SizeT.modulus - 5)) 1 (MkTally 0 0 0))
    as [n Hrun]; [lia | rewrite Hk; lia |].
  exists (cycles (Z.to_nat (SizeT.modulus - 5))), n.
  rewrite Hrun, Hk. unfold worn_out.
  replace (1 + (SizeT.modulus - 5)) with (SizeT.modulus - 4) by lia.
  reflexivity.
Qed.

(** [two_items] is what [init(4); push(7); push(8)] builds. *)
Example two_items_built :
  init 0 cells_limit true 4 constructed = Ok 0 fresh /\
  (exists q1, push 7 fresh = Ok true q1 /\ push 8 q1 = Ok true two_items).
Proof. split; [reflexivity |]. eexists. split; reflexivity. Qed.

(** ** The theorems at concrete queues *)

Lemma pop_sequential_witness :
  initialized two_items /\
  exists x,
    slot two_items ((_bottom two_items - 1) mod _capacity two_items) = Some x /\
    pop 0 two_items = Ok (true, x)
      {| _bottom := _bottom two_items - 1; _capacity := _capacity two_items;
         _buffer := _buffer two_items; _top := _top two_items |}.
Proof.
  split; [exact two_items_initialized |].
  apply (proj1 (proj2 (pop_sequential two_items 0 two_items_initialized))).
  cbn. lia.
Defined.

Lemma push_spec_witness :
  initialized fresh /\
  _top fresh + _capacity fresh < SizeT.modulus /\
  _bottom fresh < _top fresh + _capacity fresh /\
  exists q', push 7 fresh = Ok true q' /\
    _bottom q' = _bottom fresh + 1 /\ _top q' = _top fresh /\
    _capacity q' = _capacity fresh /\
    slot q' (_bottom fresh mod _capacity fresh) = Some 7 /\
    forall i, 0 <= i -> i <> _bottom fresh mod _capacity fresh ->
      slot q' i = slot fresh i.
Proof.
  split; [exact fresh_initialized |].
  assert (Hfit : _top fresh + _capacity fresh < SizeT.modulus)
    by (vm_compute; reflexivity).
  assert (H : _bottom fresh < _top fresh + _capacity fresh)
    by (vm_compute; reflexivity).
  split; [exact Hfit |]. split; [exact H |].
  exact (proj2 (push_spec fresh 7 fresh_initialized) Hfit H).
Defined.

Lemma lifo_and_fifo_witness :
  (initialized (ring 1000) /\ _bottom (ring 1000) = _top (ring 1000) /\
   2 <= _capacity (ring 1000) /\
   _top (ring 1000) + _capacity (ring 1000) < SizeT.modulus /\
   two_ends (ring 1000) 7 8 0 0) /\
  (SizeT.in_range 4 /\ 2 <= 4 /\ init 0 cells_limit true 4 constructed = Ok 0 fresh /\
   two_ends fresh 7 8 0 0).
Proof.
  assert (Hr : SizeT.in_range 1000)
    by (unfold SizeT.in_range; rewrite modulus_eq; lia).
  assert (H0 : initialized (ring 1000)) by exact (ring_initialized 1000 Hr).
  assert (H1 : _bottom (ring 1000) = _top (ring 1000)) by reflexivity.
  assert (H2 : 2 <= _capacity (ring 1000)) by (cbn; lia).
  assert (H3 : _top (ring 1000) + _capacity (ring 1000) < SizeT.modulus)
    by (vm_compute; reflexivity).
  assert (H4 : SizeT.in_range 4)
    by (unfold SizeT.in_range; rewrite modulus_eq; lia).
  assert (H5 : 2 <= 4) by lia.
  assert (Hinit : init 0 cells_limit true 4 constructed = Ok 0 fresh) by reflexivity.
  destruct (lifo_and_fifo 0 cells_limit) as [Hany Hfresh].
  split.
  - split; [exact H0 |]. split; [exact H1 |]. split; [exact H2 |].
    split; [exact H3 |].
    exact (Hany (ring 1000) 7 8 0 0%nat H0 H1 H2 H3).
  - split; [exact H4 |]. split; [exact H5 |]. split; [exact Hinit |].
    exact (Hfresh true 4 fresh 7 8 0 0%nat H4 H5 Hinit).
Defined.

Lemma init_spec_witness :
  SizeT.in_range 4 /\ uninitialized (@constructed Z) /\
  ~ (_capacity (@constructed Z) = 0 /\ power_of_two 4 /\ cells_limit < 4) /\
  exists r q', init 0 cells_limit true 4 constructed = Ok r q' /\
    (r = -1 \/ r = 0) /\
    (r = -1 <->
       (_capacity (@constructed Z) <> 0 \/ 4 = 0 \/ ~ power_of_two 4 \/
        true = false)) /\
    (r = -1 -> q' = constructed) /\
    (r = 0 ->
       initialized q' /\ invariant q' /\
       capacity q' = Ok 4 q' /\
       (forall heap_ok' cap', init 0 cells_limit heap_ok' cap' q' = Ok (-1) q') /\
       (forall ops n, exists n' q'',
          run ops n q' = Ok n' q'' /\ capacity q'' = Ok 4 q'')).
Proof.
  assert (H1 : SizeT.in_range 4)
    by (unfold SizeT.in_range; rewrite modulus_eq; lia).
  assert (H2 : ~ (_capacity (@constructed Z) = 0 /\ power_of_two 4 /\
                  cells_limit < 4))
    by (intros (_ & _ & H); vm_compute in H; discriminate).
  split; [exact H1 |]. split; [exact constructed_uninitialized |].
  split; [exact H2 |].
  exact (proj2 (init_spec 0 cells_limit constructed true 4 H1
                  (or_introl constructed_uninitialized)) H2).
Defined.

Lemma volatile_size_counts_witness :
  (SizeT.in_range 1 /\ SizeT.in_range 5 /\
   volatile_size {| _bottom := 1; _capacity := 4;
                    _buffer := Some [0; 0; 0; 0]; _top := 5 |}
   = Ok 0 {| _bottom := 1; _capacity := 4;
             _buffer := Some [0; 0; 0; 0]; _top := 5 |}) /\
  (initialized two_items /\ invariant two_items /\
   exists n q',
     run [Pop 0; Push 9; Steal 0 0] (MkTally 0 0 0) two_items = Ok n q' /\
     volatile_size q' = Ok (2 + pushes_ok n - takes_ok n) q') /\
  (SizeT.in_range 4 /\ init 0 cells_limit true 4 constructed = Ok 0 fresh /\
   exists n q',
     run [Push 1; Push 2; Pop 0; Steal 0 0; Push 3; Pop 0; Pop 0]
         (MkTally 0 0 0) fresh = Ok n q' /\
     volatile_size q' = Ok (pushes_ok n - takes_ok n) q').
Proof.
  assert (H1 : SizeT.in_range 1)
    by (unfold SizeT.in_range; rewrite modulus_eq; lia).
  assert (H4 : SizeT.in_range 4)
    by (unfold SizeT.in_range; rewrite modulus_eq; lia).
  assert (H5 : SizeT.in_range 5)
    by (unfold SizeT.in_range; rewrite modulus_eq; lia).
  assert (Hinit : init 0 cells_limit true 4 constructed = Ok 0 fresh) by reflexivity.
  destruct (volatile_size_counts 0 cells_limit) as (Hsize & Hrun & Hfresh).
  split; [| split].
  - split; [exact H1 |]. split; [exact H5 |].
    exact (Hsize {| _bottom := 1; _capacity := 4;
                    _buffer := Some [0; 0; 0; 0]; _top := 5 |} H1 H5).
  - split; [exact two_items_initialized |].
    split; [exact two_items_invariant |].
    destruct (Hrun two_items [Pop 0; Push 9; Steal 0 0]
                two_items_initialized two_items_invariant)
      as (n & q' & Hn & Hv & _).
    exists n, q'. split; [exact Hn | exact Hv].
  - split; [exact H4 |]. split; [exact Hinit |].
    exact (Hfresh true 4 fresh
             [Push 1; Push 2; Pop 0; Steal 0 0; Push 3; Pop 0; Pop 0]
             H4 Hinit).
Defined.

Lemma invariant_preserved_witness :
  (initialized fresh /\ invariant fresh) /\
  (exists r q', pop 0 two_items = Ok r q' /\ initialized q' /\ invariant q').
Proof.
  destruct (invariant_preserved 0 cells_limit) as [Hinit Hops].
  split.
  - apply (Hinit true 4 fresh);
      [unfold SizeT.in_range; rewrite modulus_eq; lia | reflexivity].
  - apply (Hops two_items two_items_initialized two_items_invariant).
Defined.

Lemma counters_move_witness :
  initialized two_items /\
  exists r q', pop 0 two_items = Ok r q' /\ _top q' >= _top two_items /\
    (_bottom two_items - _top two_items <= 1 -> _bottom q' = _bottom two_items) /\
    (_bottom two_items - _top two_items > 1 ->
       _bottom q' = _bottom two_items - 1).
Proof.
  split; [exact two_items_initialized |].
  exact (proj2 (proj2 (counters_move two_items two_items_initialized)) 0).
Defined.

(** ** Where the code departs from a plain reading *)

(** C3 at the end of the counters.  [worn_out] is initialized, empty and
    has four cells, yet both pushes return false: the sum of the full-queue
    test wraps around to 0.  Whatever [push(7); push(8)] leave, the [pop]
    that follows does not return 8 and the [steal] that follows does not
    return 7: both return false. *)
Lemma pushes_fail_at_wrap_around :
  initialized worn_out /\ invariant worn_out /\
  _bottom worn_out = _top worn_out /\ 2 <= _capacity worn_out /\
  SizeT.add (_top worn_out) (_capacity worn_out) = 0 /\
  push 7 worn_out = Ok false worn_out /\
  push 8 worn_out = Ok false worn_out /\
  pop 0 worn_out = Ok (false, 0) worn_out /\
  steal 1 0 worn_out = Ok (false, 0) worn_out /\
  ~ two_ends worn_out 7 8 0 0 /\
  ~ (exists r1 q1 r2 q2 q3,
       push 7 worn_out = Ok r1 q1 /\ push 8 q1 = Ok r2 q2 /\
       pop 0 q2 = Ok (true, 8) q3) /\
  ~ (exists r1 q1 r2 q2 q3,
       push 7 worn_out = Ok r1 q1 /\ push 8 q1 = Ok r2 q2 /\
       steal 1 0 q2 = Ok (true, 7) q3).
Proof.
  assert (Hpush7 : push 7 worn_out = Ok false worn_out) by reflexivity.
  assert (Hpush8 : push 8 worn_out = Ok false worn_out) by reflexivity.
  assert (Hpop : pop 0 worn_out = Ok (false, 0) worn_out) by reflexivity.
  assert (Hsteal : steal 1 0 worn_out = Ok (false, 0) worn_out) by reflexivity.
  split; [exact worn_out_initialized |].
  split; [exact worn_out_invariant |].
  split; [reflexivity |]. split; [cbn; lia |].
  split; [reflexivity |].
  split; [exact Hpush7 |]. split; [exact Hpush8 |].
  split; [exact Hpop |]. split; [exact Hsteal |].
  split.
  { intros (q1 & q2 & H1 & _). rewrite Hpush7 in H1. discriminate. }
  split.
  - intros (r1 & q1 & r2 & q2 & q3 & H1 & H2 & H3).
    rewrite Hpush7 in H1. injection H1 as <- <-.
    rewrite Hpush8 in H2. injection H2 as <- <-.
    rewrite Hpop in H3. discriminate.
  - intros (r1 & q1 & r2 & q2 & q3 & H1 & H2 & H3).
    rewrite Hpush7 in H1. injection H1 as <- <-.
    rewrite Hpush8 in H2. injection H2 as <- <-.
    rewrite Hsteal in H3. discriminate.
Qed.

(** C2 at the end of the counters.  [worn_out] is initialized and empty:
    [_bottom] is below [_top + _capacity], so the queue is not full and has
    room for four items.  Yet [push] returns false and leaves the queue as
    it was: the sum of the full-queue test wraps around to 0. *)
Lemma push_refused_though_not_full :
  initialized worn_out /\ invariant worn_out /\
  contents worn_out = [] /\
  ~ (_bottom worn_out >= _top worn_out + _capacity worn_out) /\
  push 7 worn_out = Ok false worn_out /\
  ~ (exists q', push 7 worn_out = Ok true q').
Proof.
  assert (Hpush : push 7 worn_out = Ok false worn_out) by reflexivity.
  split; [exact worn_out_initialized |].
  split; [exact worn_out_invariant |].
  split; [reflexivity |].
  split; [unfold worn_out, ring; cbn [_bottom _top _capacity]; lia |].
  split; [exact Hpush |].
  intros (q' & H). rewrite Hpush in H. discriminate.
Qed.

(** C4 when the heap is exhausted.  [init(8)] on the constructed queue
    returns -1 although the queue is not initialized, 8 is not 0 and 8 is a
    power of two.  And [init(2^60)] for 8-byte cells neither fails nor
    succeeds: it is left by [std::bad_array_new_length], although the queue
    is not initialized, [2^60] is not 0 and is a power of two. *)
Lemma init_fails_without_memory :
  (init 0 cells_limit false 8 (@constructed Z) = Ok (-1) constructed /\
   ~ (_capacity (@constructed Z) <> 0 \/ 8 = 0 \/ ~ power_of_two 8)) /\
  (SizeT.in_range (2 ^ 60) /\
   init 0 cells_limit true (2 ^ 60) (@constructed Z)
     = Thrown bad_array_new_length constructed /\
   ~ (_capacity (@constructed Z) <> 0 \/ 2 ^ 60 = 0 \/
      ~ power_of_two (2 ^ 60)) /\
   ~ (exists r q', init 0 cells_limit true (2 ^ 60) (@constructed Z)
                     = Ok r q')).
Proof.
  assert (Hthrown : init 0 cells_limit true (2 ^ 60) (@constructed Z)
                    = Thrown bad_array_new_length constructed)
    by reflexivity.
  split; [split; [reflexivity |] | split; [| split; [exact Hthrown | split]]].
  - intros [H | [H | H]].
    + apply H. reflexivity.
    + discriminate.
    + apply H, power_of_two_8.
  - unfold SizeT.in_range. rewrite modulus_eq. lia.
  - intros [H | [H | H]].
    + apply H. reflexivity.
    + discriminate.
    + apply H. exists 60. split; [lia | reflexivity].
  - intros (r & q' & H). rewrite Hthrown in H. discriminate.
Qed.

(** C7 on a queue of two items.  [pop] returns 8 and [_bottom] goes from 3
    down to 2. *)
Lemma pop_lowers_bottom :
  initialized two_items /\
  exists q', pop 0 two_items = Ok (true, 8) q' /\
    _bottom two_items = 3 /\ _bottom q' = 2 /\
    ~ (_bottom q' >= _bottom two_items).
Proof.
  split; [exact two_items_initialized |].
  exists {| _bottom := 2; _capacity := 4; _buffer := Some [0; 7; 8; 0];
            _top := 1 |}.
  split; [reflexivity |]. cbn. repeat split. lia.
Qed.


(** ** The context-switch primitive *)

Import Context.

(** A made context stays made until a jump enters it: no other step
    touches its handle. *)
Lemma made_stable (m m' : machine) (c c' : code) (fc : bthread_fcontext_t)
    (fn : intptr_t -> code) :
  made m fc fn -> step c m = Some (c', m') ->
  (forall ofc vp fpu rest, c <> bthread_jump_fcontext ofc fc vp fpu rest) ->
  made m' fc fn.
Proof.
  intros [Hfc Hold] Hstep Hother. unfold made.
  destruct c as [| sp size fn' rest | ofc nfc vp fpu rest | a rest | a v rest];
    cbn [step] in Hstep.
  - discriminate.
  - injection Hstep as _ <-. cbn [contexts minted].
    rewrite lookup_insert_ne by lia. split; [exact Hfc | lia].
  - assert (Hne : nfc <> fc).
    { intros ->. exact (Hother ofc vp fpu rest eq_refl). }
    destruct (<[minted m := Suspended rest]> (contexts m) !! nfc)
      as [[fn' | rest'] |]; [| | discriminate];
      injection Hstep as _ <-; cbn [contexts minted];
      rewrite lookup_delete_ne by exact Hne;
      rewrite lookup_insert_ne by lia; (split; [exact Hfc | lia]).
  - destruct (memory m !! a); [| discriminate].
    injection Hstep as _ <-. split; assumption.
  - injection Hstep as _ <-. cbn [contexts minted]. split; assumption.
Qed.

(** C9.  [bthread_make_fcontext] returns a handle of a context made for
    its entry routine.  Take any such handle whose entry routine is
    [bounce]: it does nothing but jump back to its caller with a reply.  A
    caller that jumps into the handle with the word [x] has, three steps
    later, returned from its jump, and the word the jump returned is the
    reply of the entry routine to [x]: the sentinel [v] when the reply is
    constantly [v], and [x] itself when the entry routine sends back what it
    received.  The history shows the entry routine entered with [x] and the
    caller resumed with the reply. *)
Theorem round_trip :
  (forall (m : machine) (sp size : Z) (fn : intptr_t -> code)
          (rest : bthread_fcontext_t -> code),
     exists m',
       step (bthread_make_fcontext sp size fn rest) m
         = Some (rest (minted m), m') /\
       made m' (minted m) fn) /\
  (forall (m : machine) (fc : bthread_fcontext_t)
          (caller_cell own_cell : address)
          (reply : intptr_t -> intptr_t) (x : intptr_t) (fpu fpu' : bool)
          (after_jump after_bounce : intptr_t -> code),
     made m fc (bounce caller_cell own_cell reply fpu' after_bounce) ->
     exists m',
       steps 3 (bthread_jump_fcontext caller_cell fc x fpu after_jump) m
         = Some (after_jump (reply x), m') /\
       history m' =
         history m ++ [Entered fc x; Resumed (minted m) (reply x)]).
Proof.
  split.
  - intros m sp size fn rest. eexists. split; [reflexivity |].
    unfold made. cbn [contexts minted]. split; [| lia].
    apply lookup_insert_eq.
  - intros m fc caller_cell own_cell reply x fpu fpu' after_jump after_bounce
      [Hfc Hold].
    eexists. cbn [steps step].
    rewrite lookup_insert_ne by lia. rewrite Hfc.
    cbn [bounce steps step memory contexts minted history].
    rewrite lookup_insert_eq.
    cbn [steps step memory contexts minted history].
    rewrite lookup_insert_ne by lia.
    rewrite lookup_delete_ne by lia.
    rewrite lookup_insert_eq.
    split; [reflexivity |].
    cbn [history]. rewrite <- app_assoc. reflexivity.
Qed.

(** The round trip on the blank machine: the entry routine answers 42
    whatever it receives, the caller sends 7 and stores what its jump
    returns. *)
Lemma round_trip_witness :
  exists m1,
    step (bthread_make_fcontext 4096 4096
            (bounce 100 101 (fun _ => 42) false (fun _ => Finish))
            (fun fc => bthread_jump_fcontext 100 fc 7 false
                         (fun r => Store 200 r Finish)))
         blank
    = Some (bthread_jump_fcontext 100 0 7 false (fun r => Store 200 r Finish),
            m1) /\
    made m1 0 (bounce 100 101 (fun _ => 42) false (fun _ => Finish)) /\
    exists m',
      steps 3 (bthread_jump_fcontext 100 0 7 false
                 (fun r => Store 200 r Finish)) m1
      = Some (Store 200 42 Finish, m') /\
      history m' = history m1 ++ [Entered 0 7; Resumed (minted m1) 42].
Proof.
  destruct round_trip as [Hmake Hjump].
  destruct (Hmake blank 4096 4096
              (bounce 100 101 (fun _ => 42) false (fun _ => Finish))
              (fun fc => bthread_jump_fcontext 100 fc 7 false
                           (fun r => Store 200 r Finish)))
    as (m1 & Hstep & Hmade).
  exists m1. split; [exact Hstep |]. split; [exact Hmade |].
  exact (Hjump m1 0 100 101 (fun _ => 42) 7 false false
           (fun r => Store 200 r Finish) (fun _ => Finish) Hmade).
Defined.

(** * Further properties of the queue *)

(** ** The queue as a bounded sequence *)

Section QueueAsDeque.

Context {T : Type}.
Implicit Types (q : WorkStealingQueue T) (x val : T) (xs : list T).

(** Splits the conjunctions that are written out, and no definition. *)
Ltac conjuncts := repeat match goal with |- _ /\ _ => split end.

(** Two counters less than a capacity apart never share a cell. *)
Lemma distinct_cells (i j c : Z) :
  0 < c -> i < j < i + c -> i mod c <> j mod c.
Proof.
  intros Hc Hij Heq.
  assert (H0 : (j - i) mod c = 0).
  { rewrite Zminus_mod, Heq, Z.sub_diag. apply Z.mod_0_l. lia. }
  rewrite Z.mod_small in H0; lia.
Qed.

Lemma contents_eq q q' :
  _buffer q' = _buffer q -> _capacity q' = _capacity q ->
  _top q' = _top q -> _bottom q' = _bottom q ->
  contents q' = contents q.
Proof.
  intros Hbuf Hc Ht Hb. unfold contents, slot. rewrite Hbuf, Hc, Ht, Hb.
  reflexivity.
Qed.

Lemma contents_empty q : _bottom q <= _top q -> contents q = [].
Proof.
  intros H. unfold contents. rewrite seqZ_nil by lia. reflexivity.
Qed.

(** The number of items is the distance between the counters. *)
Lemma contents_length q :
  initialized q -> _top q <= _bottom q ->
  Z.of_nat (length (contents q)) = _bottom q - _top q.
Proof.
  intros Hq Hle.
  pose proof (initialized_capacity_pos q Hq) as Hpos.
  destruct Hq as (_ & _ & _ & _ & l & Hl & Hlen).
  unfold contents.
  assert (Hgen : forall (n : nat) (t : Z),
    length (omap (fun i => slot q (i mod _capacity q)) (seqZ t (Z.of_nat n)))
    = n).
  { induction n as [| n IH]; intros t; [reflexivity |].
    rewrite seqZ_cons by lia. cbn [omap list_omap].
    pose proof (Z.mod_pos_bound t (_capacity q) Hpos) as Hm.
    assert (Hidx : (Z.to_nat (t mod _capacity q) < length l)%nat) by lia.
    destruct (lookup_lt_is_Some_2 l _ Hidx) as [x Hx].
    unfold slot at 1. rewrite Hl, Hx. cbn [length]. f_equal.
    replace (Z.pred (Z.of_nat (S n))) with (Z.of_nat n) by lia.
    apply IH. }
  specialize (Hgen (Z.to_nat (_bottom q - _top q)) (_top q)).
  rewrite Z2Nat.id in Hgen by lia. rewrite Hgen. lia.
Qed.

(** A [steal] that returns true takes the first item. *)
Lemma steal_takes_head q val (extra : nat) :
  initialized q -> _top q < _bottom q ->
  exists x q', steal (S extra) val q = Ok (true, x) q' /\
    contents q = x :: contents q' /\
    initialized q' /\ _capacity q' = _capacity q /\
    _bottom q' = _bottom q /\ _top q' = _top q + 1.
Proof.
  intros Hq Hlt.
  destruct (steal_ok q val extra Hq Hlt) as (x & Hx & Hsteal).
  destruct (steal_total q val extra Hq) as (r & q' & Hsteal' & Hq' & _).
  rewrite Hsteal in Hsteal'. injection Hsteal' as <- <-.
  eexists x, _. split; [exact Hsteal |]. split.
  - unfold contents at 1. rewrite seqZ_cons by lia.
    cbn [omap list_omap]. rewrite Hx. f_equal.
    unfold contents. cbn [_bottom _capacity _top].
    replace (Z.succ (_top q)) with (_top q + 1) by lia.
    replace (Z.pred (_bottom q - _top q)) with (_bottom q - (_top q + 1))
      by lia.
    reflexivity.
  - split; [exact Hq' |]. cbn [_bottom _capacity _top]. auto.
Qed.

(** A [pop] that returns true takes the last item. *)
Lemma pop_takes_last q val :
  initialized q -> _top q < _bottom q ->
  exists x q', pop val q = Ok (true, x) q' /\
    contents q = contents q' ++ [x] /\
    initialized q' /\ _capacity q' = _capacity q /\
    _bottom q' - _top q' = _bottom q - _top q - 1 /\
    _top q <= _top q' /\ _bottom q' <= _bottom q.
Proof.
  intros Hq Hlt.
  assert (Hsplit : exists x,
    slot q ((_bottom q - 1) mod _capacity q) = Some x /\
    contents q =
      omap (fun i => slot q (i mod _capacity q))
           (seqZ (_top q) (_bottom q - 1 - _top q)) ++ [x]).
  { pose proof (initialized_capacity_pos q Hq) as Hpos.
    destruct Hq as (_ & _ & _ & _ & l & Hl & Hlen).
    pose proof (Z.mod_pos_bound (_bottom q - 1) (_capacity q) Hpos) as Hm.
    assert (Hidx : (Z.to_nat ((_bottom q - 1) mod _capacity q) < length l)%nat)
      by lia.
    destruct (lookup_lt_is_Some_2 l _ Hidx) as [x Hx].
    assert (Hslot : slot q ((_bottom q - 1) mod _capacity q) = Some x)
      by (unfold slot; rewrite Hl; exact Hx).
    exists x. split; [exact Hslot |].
    unfold contents.
    replace (_bottom q - _top q) with ((_bottom q - 1 - _top q) + 1) by lia.
    rewrite seqZ_app by lia. rewrite omap_app. f_equal.
    rewrite seqZ_cons by lia. rewrite seqZ_nil by lia.
    cbn [omap list_omap].
    replace (_top q + (_bottom q - 1 - _top q)) with (_bottom q - 1) by lia.
    rewrite Hslot. reflexivity. }
  destruct Hsplit as (x & Hx & Hcontents).
  destruct (pop_total q val Hq) as (r & q' & Hpop & Hq' & Hc' & Hbuf' & Hcases).
  destruct Hcases as [(Hemp & _) | [(Hmany & _ & Hb' & Ht') | (Hone & _ & Hb' & Ht')]];
    [lia | |].
  - destruct (pop_many q val Hq Hmany) as (y & Hy & Hpop').
    rewrite Hx in Hy. injection Hy as <-.
    rewrite Hpop in Hpop'. injection Hpop' as -> Hq'eq.
    exists x, q'. split; [exact Hpop |]. split.
    + rewrite Hcontents. f_equal. unfold contents, slot.
      rewrite Hbuf', Hc', Hb', Ht'. reflexivity.
    + split; [exact Hq' |]. split; [exact Hc' |]. lia.
  - destruct (pop_last q val Hq Hone) as (y & Hy & Hpop').
    rewrite Hx in Hy. injection Hy as <-.
    rewrite Hpop in Hpop'. injection Hpop' as -> Hq'eq.
    exists x, q'. split; [exact Hpop |]. split.
    + rewrite Hcontents. rewrite seqZ_nil by lia.
      rewrite (contents_empty q') by lia. reflexivity.
    + split; [exact Hq' |]. split; [exact Hc' |]. lia.
Qed.

(** A [push] that returns true adds the item at the end. *)
Lemma push_appends q x :
  initialized q -> invariant q ->
  _bottom q < SizeT.add (_top q) (_capacity q) ->
  exists q', push x q = Ok true q' /\
    contents q' = contents q ++ [x] /\
    initialized q' /\ invariant q' /\ _capacity q' = _capacity q /\
    _top q' = _top q /\ _bottom q' = _bottom q + 1.
Proof.
  intros Hq Hinv Hlt.
  pose proof (push_room q Hq Hinv Hlt) as Hroom.
  pose proof (initialized_capacity_pos q Hq) as Hpos.
  destruct (push_ok q x Hq Hlt) as (l & Hl & Hidx & Hpush).
  destruct (push_total q x Hq) as (r & q' & Hpush' & Hq' & _).
  rewrite Hpush in Hpush'. injection Hpush' as <- <-.
  destruct Hinv as [Hge Hle].
  pose proof (Z.mod_pos_bound (_bottom q) (_capacity q) Hpos) as Hm.
  eexists. split; [exact Hpush |]. split.
  - unfold contents. cbn [_bottom _capacity _top].
    replace (_bottom q + 1 - _top q) with ((_bottom q - _top q) + 1) by lia.
    rewrite seqZ_app by lia. rewrite omap_app. f_equal.
    + apply list_omap_ext, Forall_Forall2_diag, Forall_seqZ.
      intros i Hi.
      pose proof (Z.mod_pos_bound i (_capacity q) Hpos) as Hmi.
      rewrite (slot_after_write q l) by (assumption || lia).
      destruct (decide (i mod _capacity q = _bottom q mod _capacity q))
        as [Heq | Hne]; [| reflexivity].
      exfalso. revert Heq. apply distinct_cells; lia.
    + rewrite seqZ_cons by lia. rewrite seqZ_nil by lia.
      cbn [omap list_omap].
      replace (_top q + (_bottom q - _top q)) with (_bottom q) by lia.
      rewrite (slot_after_write q l) by (assumption || lia).
      destruct (decide _); [reflexivity | contradiction].
  - split; [exact Hq' |]. unfold invariant. cbn [_bottom _capacity _top].
    repeat split; lia.
Qed.

(** One call against the bounded list, as long as the sum of the
    full-queue test cannot wrap around. *)
Lemma perform_refines q (o : op T) :
  initialized q -> invariant q ->
  _bottom q + _capacity q < SizeT.modulus ->
  exists q', perform o q = Ok (fst (deque_perform (_capacity q) o (contents q))) q' /\
    contents q' = snd (deque_perform (_capacity q) o (contents q)) /\
    initialized q' /\ invariant q' /\ _capacity q' = _capacity q /\
    _bottom q' <= _bottom q + 1.
Proof.
  intros Hq Hinv Hfit. pose proof Hinv as [Hge Hle].
  pose proof (initialized_capacity_pos q Hq) as Hpos.
  pose proof (contents_length q Hq ltac:(lia)) as Hlen.
  assert (Hadd : SizeT.add (_top q) (_capacity q) = _top q + _capacity q).
  { apply wrap_small. destruct Hq as (_ & Ht & _).
    unfold SizeT.in_range in *. lia. }
  destruct o as [x | val | extra val]; cbn [perform deque_perform]; unfold bind, ret.
  - destruct (Z.ltb_spec (Z.of_nat (length (contents q))) (_capacity q))
      as [Hroom | Hfull]; cbn [fst snd].
    + destruct (push_appends q x Hq Hinv)
        as (q' & Hpush & Hc & Hq' & Hinv' & Hcap & _ & Hb'); [lia |].
      exists q'. rewrite Hpush. conjuncts; auto; lia.
    + exists q. rewrite push_full by lia. conjuncts; auto; lia.
  - destruct (Z_lt_ge_dec (_top q) (_bottom q)) as [Hlt | Hemp].
    + destruct (pop_takes_last q val Hq Hlt)
        as (x & q' & Hpop & Hc & Hq' & Hcap & Hd & Ht' & Hb').
      exists q'. rewrite Hpop, Hc, last_snoc, removelast_last.
      cbn [fst snd taken].
      assert (Hinv' : invariant q') by (unfold invariant; lia).
      conjuncts; auto; lia.
    + exists q. rewrite pop_empty by lia.
      rewrite (contents_empty q) by lia. cbn [last fst snd taken].
      conjuncts; auto; lia.
  - destruct (Z_lt_ge_dec (_top q) (_bottom q)) as [Hlt | Hemp].
    + destruct (steal_takes_head q val extra Hq Hlt)
        as (x & q' & Hsteal & Hc & Hq' & Hcap & Hb' & Ht').
      exists q'. rewrite Hsteal, Hc.
      cbn [fst snd taken].
      assert (Hinv' : invariant q') by (unfold invariant; lia).
      conjuncts; auto; lia.
    + exists q. rewrite steal_empty by lia.
      rewrite (contents_empty q) by lia. cbn [fst snd taken].
      conjuncts; auto; lia.
Qed.

(** A whole sequence of calls against the bounded list. *)
Lemma perform_all_refines (ops : list (op T)) : forall q,
  initialized q -> invariant q ->
  _bottom q + Z.of_nat (length ops) + _capacity q < SizeT.modulus ->
  exists q',
    perform_all ops q
      = Ok (fst (deque_perform_all (_capacity q) ops (contents q))) q' /\
    contents q' = snd (deque_perform_all (_capacity q) ops (contents q)) /\
    initialized q' /\ invariant q' /\ _capacity q' = _capacity q.
Proof.
  induction ops as [| o ops IH]; intros q Hq Hinv Hfit.
  - exists q. cbn. unfold ret. auto.
  - cbn [length] in Hfit.
    destruct (perform_refines q o Hq Hinv) as (q1 & Hperf & Hc1 & Hq1 & Hinv1 & Hcap1 & Hb1);
      [lia |].
    destruct (IH q1 Hq1 Hinv1) as (q' & Hall & Hc' & Hq' & Hinv' & Hcap');
      [rewrite Hcap1; lia |].
    exists q'. cbn [perform_all deque_perform_all]. unfold bind, ret.
    rewrite Hperf. rewrite Hcap1, Hc1 in Hall, Hc'.
    destruct (deque_perform (_capacity q) o (contents q)) as [r xs1].
    cbn [fst snd] in *. rewrite Hall.
    destruct (deque_perform_all (_capacity q) ops xs1) as [rs xs2].
    cbn [fst snd] in *.
    conjuncts; auto. congruence.
Qed.

(** *** Runs of pushes, pops and steals on the bounded list *)

Lemma deque_perform_all_app (cap : Z) (ops1 ops2 : list (op T)) : forall xs,
  deque_perform_all cap (ops1 ++ ops2) xs =
    (fst (deque_perform_all cap ops1 xs)
       ++ fst (deque_perform_all cap ops2 (snd (deque_perform_all cap ops1 xs))),
     snd (deque_perform_all cap ops2 (snd (deque_perform_all cap ops1 xs)))).
Proof.
  induction ops1 as [| o ops1 IH]; intros xs.
  - cbn. destruct (deque_perform_all cap ops2 xs). reflexivity.
  - cbn [app deque_perform_all].
    destruct (deque_perform cap o xs) as [r xs1]. rewrite IH.
    destruct (deque_perform_all cap ops1 xs1) as [rs xs2]. reflexivity.
Qed.

Lemma deque_pushes (cap : Z) (xs : list T) : forall ys,
  Z.of_nat (length ys + length xs) <= cap ->
  deque_perform_all cap (Push <$> xs) ys
    = (replicate (length xs) (Pushed true), ys ++ xs).
Proof.
  induction xs as [| x xs IH]; intros ys Hroom.
  - cbn. rewrite app_nil_r. reflexivity.
  - cbn [fmap list_fmap deque_perform_all deque_perform length] in *.
    destruct (Z.ltb_spec (Z.of_nat (length ys)) cap); [| lia].
    rewrite IH by (rewrite length_app; cbn [length]; lia).
    rewrite <- app_assoc. reflexivity.
Qed.

Lemma deque_pops (cap : Z) val (xs : list T) : forall ys,
  deque_perform_all cap (replicate (length xs) (Pop val)) (ys ++ xs)
    = ((fun x => Took (Some x)) <$> reverse xs, ys).
Proof.
  induction xs as [| x xs IH] using rev_ind; intros ys.
  - cbn. rewrite app_nil_r. reflexivity.
  - rewrite length_app, Nat.add_comm. cbn [length Nat.add replicate].
    cbn [deque_perform_all deque_perform].
    rewrite app_assoc, last_snoc, removelast_last, IH, reverse_snoc.
    reflexivity.
Qed.

Lemma deque_steals (cap : Z) (extra : nat) val (xs : list T) : forall ys,
  deque_perform_all cap (replicate (length xs) (Steal extra val)) (xs ++ ys)
    = ((fun x => Took (Some x)) <$> xs, ys).
Proof.
  induction xs as [| x xs IH]; intros ys; [reflexivity |].
  cbn [length replicate app deque_perform_all deque_perform].
  rewrite IH. reflexivity.
Qed.

(** *** The three operations on the sequence of items *)

(** X1.  [steal] on an initialized queue run by one thread.  When the queue
    is empty ([_top >= _bottom]) it returns false, whatever the number of
    rounds allowed, and changes neither the queue nor the cell it was
    given.  Otherwise one round is enough, and more rounds change nothing:
    it returns true with the item of cell [_top mod _capacity], [_top] goes
    up by one, and [_bottom], the capacity and the ring stay as they are. *)
Theorem steal_sequential q val :
  initialized q ->
  (_top q >= _bottom q ->
     forall fuel : nat, steal fuel val q = Ok (false, val) q) /\
  (_top q < _bottom q ->
     exists x, slot q (_top q mod _capacity q) = Some x /\
       forall extra : nat,
         steal (S extra) val q = Ok (true, x)
           {| _bottom := _bottom q; _capacity := _capacity q;
              _buffer := _buffer q; _top := _top q + 1 |}).
Proof.
  intros Hq. split.
  - intros Hemp fuel. apply steal_empty, Hemp.
  - intros Hlt.
    destruct (steal_ok q val 0%nat Hq Hlt) as (x & Hx & _).
    exists x. split; [exact Hx |]. intros extra.
    destruct (steal_ok q val extra Hq Hlt) as (x' & Hx' & Hsteal).
    rewrite Hx in Hx'. injection Hx' as <-. exact Hsteal.
Qed.

(** X2.  [push] on the sequence of items, on an initialized queue within
    the two inequalities whose full-queue test cannot wrap around.  The
    queue never holds more than [_capacity] items.  When it holds fewer,
    [push x] returns true and [x] is the new last item; when it holds
    [_capacity] items, [push x] returns false and changes nothing. *)
Theorem push_on_contents q x :
  initialized q -> invariant q ->
  _top q + _capacity q < SizeT.modulus ->
  Z.of_nat (length (contents q)) <= _capacity q /\
  (Z.of_nat (length (contents q)) < _capacity q ->
     exists q', push x q = Ok true q' /\ contents q' = contents q ++ [x]) /\
  (Z.of_nat (length (contents q)) = _capacity q -> push x q = Ok false q).
Proof.
  intros Hq Hinv Hfit. pose proof Hinv as [Hge Hle].
  pose proof (contents_length q Hq ltac:(lia)) as Hlen.
  pose proof (initialized_capacity_pos q Hq) as Hpos.
  assert (Hadd : SizeT.add (_top q) (_capacity q) = _top q + _capacity q).
  { apply wrap_small. destruct Hq as (_ & Ht & _).
    unfold SizeT.in_range in *. lia. }
  conjuncts.
  - lia.
  - intros Hroom.
    destruct (push_appends q x Hq Hinv) as (q' & Hpush & Hc & _); [lia |].
    exists q'. auto.
  - intros Hfull. apply push_full. lia.
Qed.

(** X3.  [pop] on the sequence of items, on an initialized queue with
    [_top <= _bottom].  When the sequence is empty, [pop] returns false and
    changes nothing.  When it is [xs] followed by [x], [pop] returns true
    with [x], and [xs] is what the queue holds afterwards. *)
Theorem pop_on_contents q val :
  initialized q -> _top q <= _bottom q ->
  (contents q = [] -> pop val q = Ok (false, val) q) /\
  (forall xs x, contents q = xs ++ [x] ->
     exists q', pop val q = Ok (true, x) q' /\ contents q' = xs).
Proof.
  intros Hq Hle.
  pose proof (contents_length q Hq Hle) as Hlen. split.
  - intros Hnil. rewrite Hnil in Hlen. cbn [length] in Hlen.
    apply pop_empty. lia.
  - intros xs x Hc.
    assert (Hlt : _top q < _bottom q).
    { rewrite Hc, length_app in Hlen. cbn [length] in Hlen. lia. }
    destruct (pop_takes_last q val Hq Hlt) as (x' & q' & Hpop & Hc' & _).
    rewrite Hc in Hc'. apply app_inj_tail in Hc' as [-> ->].
    exists q'. auto.
Qed.

(** X4.  [steal] on the sequence of items, on an initialized queue with
    [_top <= _bottom].  When the sequence is empty, [steal] returns false
    and changes nothing.  When it is [x] followed by [xs], [steal] returns
    true with [x], and [xs] is what the queue holds afterwards. *)
Theorem steal_on_contents q val (extra : nat) :
  initialized q -> _top q <= _bottom q ->
  (contents q = [] -> steal (S extra) val q = Ok (false, val) q) /\
  (forall x xs, contents q = x :: xs ->
     exists q', steal (S extra) val q = Ok (true, x) q' /\ contents q' = xs).
Proof.
  intros Hq Hle.
  pose proof (contents_length q Hq Hle) as Hlen. split.
  - intros Hnil. rewrite Hnil in Hlen. cbn [length] in Hlen.
    apply steal_empty. lia.
  - intros x xs Hc.
    assert (Hlt : _top q < _bottom q).
    { rewrite Hc in Hlen. cbn [length] in Hlen. lia. }
    destruct (steal_takes_head q val extra Hq Hlt) as (x' & q' & Hsteal & Hc' & _).
    rewrite Hc in Hc'. injection Hc' as <- ->.
    exists q'. auto.
Qed.

(** X5.  A sequence of calls by one thread on an initialized queue within
    the two inequalities acts on the sequence of items like the same calls
    on a list bounded by the capacity: every call gives back what the list
    gives back, and the queue ends with the items the list ends with.  The
    counters must be far enough from the end of [size_t] for the length of
    the sequence. *)
Theorem calls_act_on_bounded_list q (ops : list (op T)) :
  initialized q -> invariant q ->
  _bottom q + Z.of_nat (length ops) + _capacity q < SizeT.modulus ->
  exists q',
    perform_all ops q
      = Ok (fst (deque_perform_all (_capacity q) ops (contents q))) q' /\
    contents q' = snd (deque_perform_all (_capacity q) ops (contents q)).
Proof.
  intros Hq Hinv Hfit.
  destruct (perform_all_refines ops q Hq Hinv Hfit) as (q' & Hall & Hc & _).
  exists q'. auto.
Qed.

(** X6.  Items pushed in a row come back from [pop] in the reverse order,
    as long as the counters stay clear of the end of [size_t]: when the
    items of [xs] fit into the room that is left and
    [_bottom + 2 * length xs + _capacity < 2^64], pushing them and popping
    as many times gives true for every push and then the items of [xs],
    last first; the queue then holds what it held before. *)
Theorem pops_return_pushes_reversed q val (xs : list T) :
  initialized q -> invariant q ->
  Z.of_nat (length (contents q) + length xs) <= _capacity q ->
  _bottom q + 2 * Z.of_nat (length xs) + _capacity q < SizeT.modulus ->
  exists q',
    perform_all ((Push <$> xs) ++ replicate (length xs) (Pop val)) q
      = Ok (replicate (length xs) (Pushed true)
              ++ ((fun x => Took (Some x)) <$> reverse xs)) q' /\
    contents q' = contents q.
Proof.
  intros Hq Hinv Hroom Hfit.
  destruct (perform_all_refines
              ((Push <$> xs) ++ replicate (length xs) (Pop val)) q Hq Hinv)
    as (q' & Hall & Hc & _).
  { rewrite length_app, length_fmap, length_replicate. lia. }
  exists q'. rewrite Hall, Hc, deque_perform_all_app.
  rewrite deque_pushes by exact Hroom. cbn [fst snd].
  rewrite deque_pops. auto.
Qed.

(** X7.  Items come back from [steal] in the order of their pushes, as
    long as the counters stay clear of the end of [size_t]: when the items
    of [xs] fit into the room that is left and
    [_bottom + (number of items held + 2 * length xs) + _capacity < 2^64],
    pushing them and stealing until nothing is left gives true for every
    push and then the items the queue held before followed by those of
    [xs], first first; the queue ends empty. *)
Theorem steals_return_pushes_in_order q val (extra : nat) (xs : list T) :
  initialized q -> invariant q ->
  Z.of_nat (length (contents q) + length xs) <= _capacity q ->
  _bottom q + (Z.of_nat (length (contents q)) + 2 * Z.of_nat (length xs))
    + _capacity q < SizeT.modulus ->
  exists q',
    perform_all ((Push <$> xs)
                   ++ replicate (length (contents q ++ xs)) (Steal extra val)) q
      = Ok (replicate (length xs) (Pushed true)
              ++ ((fun x => Took (Some x)) <$> (contents q ++ xs))) q' /\
    contents q' = [].
Proof.
  intros Hq Hinv Hroom Hfit.
  destruct (perform_all_refines
              ((Push <$> xs)
                 ++ replicate (length (contents q ++ xs)) (Steal extra val))
              q Hq Hinv)
    as (q' & Hall & Hc & _).
  { rewrite length_app, length_fmap, length_replicate, length_app. lia. }
  exists q'. rewrite Hall, Hc, deque_perform_all_app.
  rewrite deque_pushes by exact Hroom. cbn [fst snd].
  pose proof (deque_steals (_capacity q) extra val (contents q ++ xs) [])
    as Hsteals.
  rewrite app_nil_r in Hsteals. rewrite Hsteals. auto.
Qed.

End QueueAsDeque.

(** ** The ring and the counters over time *)

Section QueueOverTime.

Context {T : Type}.
Implicit Types (q : WorkStealingQueue T) (x val : T) (xs : list T).

Ltac conjuncts := repeat match goal with |- _ /\ _ => split end.

(** X8.  The index computation of [push], [pop] and [steal].  On an
    initialized queue, whatever [size_t] the counter [i] is,
    [i & (_capacity - 1)] is [i mod _capacity], lies in
    [0, _capacity), and names a cell of the ring. *)
Theorem masked_counter_names_a_cell q (i : Z) :
  initialized q -> SizeT.in_range i ->
  SizeT.and i (SizeT.sub (_capacity q) 1) = i mod _capacity q /\
  0 <= SizeT.and i (SizeT.sub (_capacity q) 1) < _capacity q /\
  exists x, slot q (SizeT.and i (SizeT.sub (_capacity q) 1)) = Some x.
Proof.
  intros Hq Hi.
  pose proof (initialized_capacity_pos q Hq) as Hpos.
  pose proof Hq as (_ & _ & _ & _ & l & Hl & Hlen).
  destruct (masked_index_in_ring q i l Hq Hl) as [Hmask Hidx].
  rewrite Hmask. conjuncts; try reflexivity;
    try apply (Z.mod_pos_bound i (_capacity q) Hpos).
  destruct (lookup_lt_is_Some_2 l _ Hidx) as [x Hx].
  exists x. unfold slot. rewrite Hl. exact Hx.
Qed.

(** What one call leaves of the ring. *)
Lemma call_keeps_ring q (o : op T) :
  initialized q ->
  exists flag q' l l', call o q = Ok flag q' /\ initialized q' /\
    _capacity q' = _capacity q /\
    _buffer q = Some l /\ _buffer q' = Some l' /\ length l' = length l /\
    ((forall x, o <> Push x) -> l' = l).
Proof.
  intros Hq. pose proof Hq as (_ & _ & _ & _ & l & Hl & Hlen).
  destruct o as [x | val | extra val]; unfold call, bind, ret.
  - destruct (Z_lt_ge_dec (_bottom q) (SizeT.add (_top q) (_capacity q)))
      as [Hlt | Hge].
    + destruct (push_ok q x Hq Hlt) as (l0 & Hl0 & Hidx & Hpush).
      destruct (push_total q x Hq) as (r & q' & Hpush' & Hq' & Hc' & _).
      rewrite Hpush in Hpush'. injection Hpush' as <- <-.
      rewrite Hl in Hl0. injection Hl0 as <-.
      eexists true, _, l, _. rewrite Hpush.
      conjuncts; try reflexivity; try assumption.
      * apply length_insert.
      * intros H. exfalso. exact (H x eq_refl).
    + exists false, q, l, l. rewrite push_full by exact Hge.
      conjuncts; auto.
  - destruct (pop_total q val Hq) as (r & q' & Hpop & Hq' & Hc' & Hbuf' & _).
    exists (fst r), q', l, l. rewrite Hpop.
    conjuncts; auto. congruence.
  - destruct (steal_total q val extra Hq)
      as (r & q' & Hsteal & Hq' & Hc' & Hbuf' & _).
    exists (fst r), q', l, l. rewrite Hsteal.
    conjuncts; auto. congruence.
Qed.

(** X9.  The ring is never resized: after any sequence of calls of
    [push], [pop] and [steal] on an initialized queue the capacity is what
    it was and the ring has as many cells as before.  [pop] and [steal]
    never write a cell: after a sequence without [push] the ring is the
    same, cell by cell. *)
Theorem ring_is_never_resized (ops : list (op T)) : forall q (n : tally),
  initialized q ->
  exists n' q' l l', run ops n q = Ok n' q' /\
    _capacity q' = _capacity q /\
    _buffer q = Some l /\ _buffer q' = Some l' /\ length l' = length l /\
    (Forall (fun o => forall x, o <> Push x) ops -> l' = l).
Proof.
  induction ops as [| o ops IH]; intros q n Hq.
  - pose proof Hq as (_ & _ & _ & _ & l & Hl & _).
    exists n, q, l, l. cbn [run]. unfold ret. conjuncts; auto.
  - destruct (call_keeps_ring q o Hq)
      as (flag & q1 & l & l1 & Hcall & Hq1 & Hc1 & Hl & Hl1 & Hlen1 & Hsame1).
    destruct (IH q1 (count o flag n) Hq1)
      as (n' & q' & l1' & l' & Hrun & Hc' & Hl1' & Hl' & Hlen' & Hsame').
    rewrite Hl1 in Hl1'. injection Hl1' as <-.
    exists n', q', l, l'. cbn [run]. unfold bind. rewrite Hcall.
    conjuncts; auto; try congruence.
    intros Hall. apply Forall_cons in Hall as [Ho Hops].
    rewrite (Hsame' Hops). apply Hsame1, Ho.
Qed.

(** Once the sum of the full-queue test wraps around, [push] returns
    false. *)
Lemma push_refused_past_wrap q x :
  initialized q -> invariant q ->
  SizeT.modulus <= _top q + _capacity q ->
  push x q = Ok false q.
Proof.
  intros Hq [Hge Hle] Hwrap. apply push_full.
  pose proof (initialized_capacity_pos q Hq) as Hpos.
  destruct Hq as (Hb & Ht & Hc & _).
  destruct (add_cases (_top q) (_capacity q)) as [[Hlt _] | [_ Heq]];
    [exact Ht | unfold SizeT.in_range; lia | lia |].
  rewrite Heq. unfold SizeT.in_range in *. lia.
Qed.

(** X10.  A queue wears out.  Once [_top + _capacity] has reached [2^64] on
    an initialized queue within the two inequalities, the sum of the
    full-queue test wraps around and no [push] returns true any more,
    whatever calls follow and whether or not the queue is full: in every
    sequence of calls the number of pushes that return true is 0. *)
Theorem worn_out_queue_refuses_every_push (ops : list (op T)) :
  forall q (n : tally),
  initialized q -> invariant q ->
  SizeT.modulus <= _top q + _capacity q ->
  exists n' q', run ops n q = Ok n' q' /\
    pushes_ok n' = pushes_ok n /\
    SizeT.modulus <= _top q' + _capacity q'.
Proof.
  induction ops as [| o ops IH]; intros q n Hq Hinv Hwrap.
  - exists n, q. cbn [run]. unfold ret. auto.
  - destruct (call_total q o n Hq Hinv)
      as (flag & q1 & Hcall & Hq1 & Hinv1 & Hc1 & _).
    assert (Hflag : pushes_ok (count o flag n) = pushes_ok n /\
                    _top q <= _top q1).
    { destruct o as [x | val | extra val]; unfold call, bind, ret in Hcall.
      - rewrite (push_refused_past_wrap q x Hq Hinv Hwrap) in Hcall.
        injection Hcall as <- <-. cbn [count pushes_ok]. lia.
      - destruct (pop_total q val Hq) as (r & q' & Hpop & _ & _ & _ & Hcases).
        rewrite Hpop in Hcall. injection Hcall as <- <-.
        split; [destruct (fst r); reflexivity |].
        destruct Hcases as [(_ & _ & ->) | [(_ & _ & _ & ->) | (_ & _ & _ & ->)]];
          lia.
      - destruct (steal_total q val extra Hq)
          as (r & q' & Hsteal & _ & _ & _ & _ & Hcases).
        rewrite Hsteal in Hcall. injection Hcall as <- <-.
        split; [destruct (fst r); reflexivity |].
        destruct Hcases as [(_ & _ & ->) | (_ & _ & ->)]; lia. }
    destruct Hflag as [Hflag Htop].
    destruct (IH q1 (count o flag n) Hq1 Hinv1) as (n' & q' & Hrun & Hn' & Hwrap');
      [rewrite Hc1; lia |].
    exists n', q'. cbn [run]. unfold bind. rewrite Hcall.
    conjuncts; auto. congruence.
Qed.

(** X11.  A push followed by a take, on an initialized queue within the two
    inequalities that has room left and whose full-queue test cannot wrap
    around.  [push x] then [pop] gives [x] back and the queue holds what it
    held before.  The counters are back where they were when the queue held
    an item before the push; when it was empty, [pop] took the last item
    through [_top], and both counters end one higher than they started.
    On the empty queue [push x] then [steal] gives [x] back as well, with
    the same counters. *)
Theorem push_then_take q x val (extra : nat) :
  initialized q -> invariant q ->
  _bottom q - _top q < _capacity q ->
  _top q + _capacity q < SizeT.modulus ->
  exists q1, push x q = Ok true q1 /\
    (exists q2, pop val q1 = Ok (true, x) q2 /\
       contents q2 = contents q /\
       (_top q < _bottom q -> _bottom q2 = _bottom q /\ _top q2 = _top q) /\
       (_top q = _bottom q ->
          _bottom q2 = _bottom q + 1 /\ _top q2 = _top q + 1)) /\
    (_top q = _bottom q ->
       exists q2, steal (S extra) val q1 = Ok (true, x) q2 /\
         contents q2 = [] /\
         _bottom q2 = _bottom q + 1 /\ _top q2 = _top q + 1).
Proof.
  intros Hq Hinv Hroom Hfit. pose proof Hinv as [Hge Hle].
  assert (Hadd : SizeT.add (_top q) (_capacity q) = _top q + _capacity q).
  { apply wrap_small. pose proof (initialized_capacity_pos q Hq).
    destruct Hq as (_ & Ht & _). unfold SizeT.in_range in *. lia. }
  destruct (push_appends q x Hq Hinv)
    as (q1 & Hpush & Hc1 & Hq1 & Hinv1 & Hcap1 & Ht1 & Hb1); [lia |].
  exists q1. split; [exact Hpush |]. split.
  - destruct (pop_takes_last q1 val Hq1)
      as (y & q2 & Hpop & Hc2 & Hq2 & Hcap2 & Hd2 & Ht2 & Hb2); [lia |].
    rewrite Hc1 in Hc2. apply app_inj_tail in Hc2 as [Hc2 <-].
    exists q2. split; [exact Hpop |]. split; [auto |].
    destruct (pop_total q1 val Hq1) as (r & q2' & Hpop' & _ & _ & _ & Hcases).
    rewrite Hpop in Hpop'. injection Hpop' as <- <-.
    destruct Hcases as [(? & _) | [(? & _ & Hb & Ht) | (? & _ & Hb & Ht)]];
      split; intros; lia.
  - intros Hempty.
    destruct (steal_takes_head q1 val extra Hq1)
      as (y & q2 & Hsteal & Hc2 & Hq2 & Hcap2 & Hb2 & Ht2); [lia |].
    rewrite Hc1, (contents_empty q) in Hc2 by lia.
    cbn [app] in Hc2. injection Hc2 as <- Hc2.
    exists q2. conjuncts; auto; lia.
Qed.

End QueueOverTime.

(** ** A pop and a steal that overlap *)

Section Overlap.

Context {T : Type}.
Implicit Types (q : WorkStealingQueue T) (x val : T).

Ltac conjuncts := repeat match goal with |- _ /\ _ => split end.

(** The segments, run one after the other with nothing in between, are
    the member functions. *)
Lemma pop_in_segments q val :
  bind pop_begin (pop_finish val) q = pop val q.
Proof.
  destruct q as [b c buf t].
  unfold pop, pop_begin, pop_finish, pop_reread, pop_exchange,
    atomic_thread_fence, bind, ret,
    load_bottom, load_top, get_capacity, store_bottom,
    buffer_read, top_compare_exchange_strong.
  cbn [_bottom _capacity _buffer _top].
  destruct (t >=? b); [reflexivity |].
  cbn [_bottom _capacity _buffer _top].
  destruct (t >? SizeT.sub b 1); [reflexivity |].
  cbn [_bottom _capacity _buffer _top].
  destruct buf as [l |]; [| reflexivity].
  destruct (l !! Z.to_nat (SizeT.and (SizeT.sub b 1) (SizeT.sub c 1)))
    as [x |]; [| reflexivity].
  destruct (negb (t =? SizeT.sub b 1)); reflexivity.
Qed.

Lemma steal_in_segments q val (fuel : nat) :
  bind thief_reads (thief_finish fuel val) q = steal (S fuel) val q.
Proof.
  destruct q as [b c buf t].
  unfold steal, steal_loop, thief_reads, thief_finish, steal_begin,
    steal_reads, steal_exchange, atomic_thread_fence, bind, ret,
    load_bottom, load_top, get_capacity,
    buffer_read, top_compare_exchange_strong.
  cbn [_bottom _capacity _buffer _top].
  destruct (t >=? b) eqn:Hempty; [reflexivity |].
  cbn [_bottom _capacity _buffer _top]. rewrite ?Hempty.
  cbn [_bottom _capacity _buffer _top].
  destruct buf as [l |]; [| reflexivity].
  destruct (l !! Z.to_nat (SizeT.and t (SizeT.sub c 1))) as [x |];
    reflexivity.
Qed.

(** What the proofs below need to know about a queue that holds an item:
    the ring, the item in the cell of [_top], and the arithmetic of the
    counters around it. *)
Lemma first_item q :
  initialized q -> _top q < _bottom q ->
  exists l x, _buffer q = Some l /\
    l !! Z.to_nat (_top q mod _capacity q) = Some x /\
    slot q (_top q mod _capacity q) = Some x /\
    SizeT.and (_top q) (SizeT.sub (_capacity q) 1) = _top q mod _capacity q /\
    SizeT.add (_top q) 1 = _top q + 1 /\
    SizeT.sub (_top q + 1) 1 = _top q.
Proof.
  intros Hq Hlt.
  pose proof Hq as (Hb & Ht & _ & _ & l & Hl & _).
  destruct (masked_index_in_ring q (_top q) l Hq Hl) as [Hmask Hidx].
  destruct (lookup_lt_is_Some_2 l _ Hidx) as [x Hx].
  exists l, x. conjuncts; auto.
  - unfold slot. rewrite Hl. exact Hx.
  - apply wrap_small. unfold SizeT.in_range in *. lia.
  - unfold SizeT.sub. replace (_top q + 1 - 1) with (_top q) by lia.
    apply wrap_small, Ht.
Qed.

Ltac reduce := cbn [_bottom _capacity _buffer _top fst snd negb].

(** Runs the segments: reduces what is known, rewrites with the
    arithmetic at hand, and settles each test of the code by [lia]. *)
Ltac advance :=
  repeat first
    [ progress reduce
    | match goal with H : SizeT.and _ _ = _ |- _ => rewrite H end
    | match goal with H : SizeT.add _ _ = _ |- _ => rewrite H end
    | match goal with H : SizeT.sub _ _ = _ |- _ => rewrite H end
    | match goal with H : _ !! _ = Some _ |- _ => rewrite H end
    | match goal with
      | |- context [?a >=? ?b] => destruct (Z.geb_spec a b); try lia
      | |- context [?a >? ?b] => destruct (Z.gtb_spec a b); try lia
      | |- context [?a =? ?b] => destruct (Z.eqb_spec a b); try lia
      end ].

Ltac open_segments :=
  unfold steal_lands_before_reread, steal_lands_before_exchange,
    pop_lands_before_exchange, steal_inside_pop, two_thieves,
    thief_reads, thief_finish, steal_begin, steal_reads, steal_exchange,
    pop_begin, pop_finish, pop_reread, pop_exchange,
    steal, steal_loop, pop,
    atomic_thread_fence, bind, ret,
    load_bottom, load_top, get_capacity, store_bottom,
    buffer_read, top_compare_exchange_strong.

(** X12.  The thief is first, and the owner notices at its re-read.  The
    queue holds one item.  A thief has read it and is about to exchange;
    the owner runs [pop] up to its fence, lowering [_bottom]; the thief
    exchanges and returns true with the item; the owner re-reads [_top],
    finds it above the lowered [_bottom], puts [_bottom] back and returns
    false without touching its cell.  The queue ends empty, both counters
    at the value [_bottom] had. *)
Theorem thief_wins_before_reread q val_o val_t (fuel : nat) :
  initialized q -> _bottom q = _top q + 1 ->
  exists x, slot q (_top q mod _capacity q) = Some x /\
    steal_lands_before_reread fuel val_o val_t q
      = Ok ((false, val_o), (true, x))
           {| _bottom := _bottom q; _capacity := _capacity q;
              _buffer := _buffer q; _top := _bottom q |}.
Proof.
  intros Hq Hone.
  destruct (first_item q Hq ltac:(lia))
    as (l & x & Hl & Hx & Hslot & Hmask & Hadd & Hsub).
  exists x. split; [exact Hslot |].
  destruct q as [b c buf t]. cbn [_bottom _capacity _buffer _top] in *.
  subst b buf. open_segments. advance. reflexivity.
Qed.

(** X13.  The thief is first, and the owner notices at its exchange.  The
    queue holds one item.  A thief has read it and is about to exchange;
    the owner runs [pop] up to its own exchange and has read the item too;
    the thief exchanges and returns true with the item; the owner's
    exchange fails, it puts [_bottom] back and returns false, although its
    cell now holds the item.  The queue ends empty, both counters at the
    value [_bottom] had. *)
Theorem thief_wins_before_exchange q val_o val_t (fuel : nat) :
  initialized q -> _bottom q = _top q + 1 ->
  exists x, slot q (_top q mod _capacity q) = Some x /\
    steal_lands_before_exchange fuel val_o val_t q
      = Ok ((false, x), (true, x))
           {| _bottom := _bottom q; _capacity := _capacity q;
              _buffer := _buffer q; _top := _bottom q |}.
Proof.
  intros Hq Hone.
  destruct (first_item q Hq ltac:(lia))
    as (l & x & Hl & Hx & Hslot & Hmask & Hadd & Hsub).
  exists x. split; [exact Hslot |].
  destruct q as [b c buf t]. cbn [_bottom _capacity _buffer _top] in *.
  subst b buf. open_segments. advance. reflexivity.
Qed.

(** X14.  The owner is first.  The queue holds one item.  A thief has read
    it and is about to exchange; the owner runs a whole [pop], which takes
    the item through [_top] and returns true; the thief's exchange fails,
    its next round finds the queue empty and it returns false, although its
    cell now holds the item.  The queue ends empty, both counters at the
    value [_bottom] had. *)
Theorem owner_wins_before_exchange q val_o val_t (extra : nat) :
  initialized q -> _bottom q = _top q + 1 ->
  exists x, slot q (_top q mod _capacity q) = Some x /\
    pop_lands_before_exchange (S extra) val_o val_t q
      = Ok ((true, x), (false, x))
           {| _bottom := _bottom q; _capacity := _capacity q;
              _buffer := _buffer q; _top := _bottom q |}.
Proof.
  intros Hq Hone.
  destruct (first_item q Hq ltac:(lia))
    as (l & x & Hl & Hx & Hslot & Hmask & Hadd & Hsub).
  exists x. split; [exact Hslot |].
  destruct q as [b c buf t]. cbn [_bottom _capacity _buffer _top] in *.
  subst b buf. open_segments. advance. reflexivity.
Qed.

(** X15.  A steal in the middle of a pop reports an empty queue.  The queue
    holds one item.  The owner has run [pop] up to its fence, lowering
    [_bottom]; a thief runs a whole [steal], finds [_top >= _bottom] and
    returns false without touching its cell, whatever the number of rounds
    allowed; the owner finishes and returns true with the item. *)
Theorem steal_inside_pop_finds_nothing q val_o val_t (fuel : nat) :
  initialized q -> _bottom q = _top q + 1 ->
  exists x, slot q (_top q mod _capacity q) = Some x /\
    steal_inside_pop fuel val_o val_t q
      = Ok ((true, x), (false, val_t))
           {| _bottom := _bottom q; _capacity := _capacity q;
              _buffer := _buffer q; _top := _bottom q |}.
Proof.
  intros Hq Hone.
  destruct (first_item q Hq ltac:(lia))
    as (l & x & Hl & Hx & Hslot & Hmask & Hadd & Hsub).
  exists x. split; [exact Hslot |].
  destruct q as [b c buf t]. cbn [_bottom _capacity _buffer _top] in *.
  subst b buf. open_segments. advance. reflexivity.
Qed.

(** X16.  Two thieves after the same item.  Both have read the first item
    and are about to exchange.  The first exchanges and returns true with
    it.  The exchange of the second fails and hands it the new [_top]; on
    its next round it returns false when that was the only item, and
    otherwise returns true with the second item, so that no item is
    returned twice. *)
Theorem two_thieves_take_different_items q val1 val2 (extra : nat) :
  initialized q -> _top q < _bottom q ->
  exists x, slot q (_top q mod _capacity q) = Some x /\
    (_bottom q = _top q + 1 ->
       two_thieves (S extra) val1 val2 q
         = Ok ((true, x), (false, x))
              {| _bottom := _bottom q; _capacity := _capacity q;
                 _buffer := _buffer q; _top := _top q + 1 |}) /\
    (_top q + 1 < _bottom q ->
       exists y, slot q ((_top q + 1) mod _capacity q) = Some y /\
         two_thieves (S extra) val1 val2 q
           = Ok ((true, x), (true, y))
                {| _bottom := _bottom q; _capacity := _capacity q;
                   _buffer := _buffer q; _top := _top q + 2 |}).
Proof.
  intros Hq Hlt.
  destruct (first_item q Hq Hlt)
    as (l & x & Hl & Hx & Hslot & Hmask & Hadd & Hsub).
  exists x. split; [exact Hslot |]. split.
  - intros Hone.
    destruct q as [b c buf t]. cbn [_bottom _capacity _buffer _top] in *.
    subst b buf. open_segments. advance. reflexivity.
  - intros Htwo.
    pose proof Hq as (Hb & Ht & _).
    assert (Hr : SizeT.in_range (_top q + 1))
      by (unfold SizeT.in_range in *; lia).
    destruct (masked_index_in_ring q (_top q + 1) l Hq Hl) as [Hmask' Hidx'].
    destruct (lookup_lt_is_Some_2 l _ Hidx') as [y Hy].
    assert (Hadd' : SizeT.add (_top q + 1) 1 = _top q + 2).
    { unfold SizeT.add. replace (_top q + 1 + 1) with (_top q + 2) by lia.
      apply wrap_small. unfold SizeT.in_range in *. lia. }
    exists y. split; [unfold slot; rewrite Hl; exact Hy |].
    destruct q as [b c buf t]. cbn [_bottom _capacity _buffer _top] in *.
    subst buf. open_segments. advance. reflexivity.
Qed.

(** X17.  With two or more items a pop and a steal that overlap both
    succeed.  A thief has read the first item and is about to exchange; the
    owner runs [pop] up to its fence; the thief exchanges and returns true
    with the first item; the owner finishes and returns true with the last
    item, which lies in another cell.  With exactly two items the owner
    takes its item through [_top]; with more it takes it by lowering
    [_bottom]. *)
Theorem pop_and_steal_take_both_ends q val_o val_t (fuel : nat) :
  initialized q -> _top q + 1 < _bottom q ->
  _bottom q - _top q <= _capacity q ->
  exists x y,
    slot q (_top q mod _capacity q) = Some x /\
    slot q ((_bottom q - 1) mod _capacity q) = Some y /\
    _top q mod _capacity q <> (_bottom q - 1) mod _capacity q /\
    exists q',
      steal_lands_before_reread fuel val_o val_t q
        = Ok ((true, y), (true, x)) q' /\
      _capacity q' = _capacity q /\ _buffer q' = _buffer q /\
      (_bottom q = _top q + 2 ->
         _bottom q' = _bottom q /\ _top q' = _bottom q) /\
      (_top q + 2 < _bottom q ->
         _bottom q' = _bottom q - 1 /\ _top q' = _top q + 1).
Proof.
  intros Hq Hlt Hle.
  destruct (first_item q Hq ltac:(lia))
    as (l & x & Hl & Hx & Hslot & Hmask & Hadd & _).
  pose proof (initialized_capacity_pos q Hq) as Hpos.
  pose proof Hq as (Hb & Ht & _).
  destruct (masked_index_in_ring q (_bottom q - 1) l Hq Hl) as [Hmask' Hidx'].
  destruct (lookup_lt_is_Some_2 l _ Hidx') as [y Hy].
  assert (Hsub : SizeT.sub (_bottom q) 1 = _bottom q - 1).
  { apply wrap_small. unfold SizeT.in_range in *. lia. }
  assert (Hadd' : SizeT.add (_top q + 1) 1 = _top q + 2).
  { unfold SizeT.add. replace (_top q + 1 + 1) with (_top q + 2) by lia.
    apply wrap_small. unfold SizeT.in_range in *. lia. }
  exists x, y. split; [exact Hslot |].
  split; [unfold slot; rewrite Hl; exact Hy |].
  split; [apply distinct_cells; lia |].
  destruct q as [b c buf t]. cbn [_bottom _capacity _buffer _top] in *.
  subst buf. open_segments. advance.
  - eexists. split; [reflexivity |]. reduce. conjuncts; auto; lia.
  - eexists. split; [reflexivity |]. reduce. conjuncts; auto; lia.
Qed.

End Overlap.

(** ** One owner and several thieves *)

Section ThreadFacts.

Context {T : Type}.
Implicit Types (q : WorkStealingQueue T) (x val : T) (o : owner T)
  (th : thief T) (s : system T) (xs : list T).

(** *** The items between the counters *)





(** *** One access at a time *)







(** *** Schedules *)








(** *** A call that runs alone *)

(** Runs the next access of a schedule. *)
Ltac access :=
  cbn [replicate run_schedule schedule_step owner_step thief_step
       lookup list_lookup insert list_insert
       shared the_owner program thieves returned];
  unfold atomic_thread_fence;
  unfold bind, ret, load_bottom, load_top, get_capacity, store_bottom,
    top_compare_exchange_strong, buffer_read, buffer_write;
  cbn [_bottom _capacity _buffer _top fst snd negb taken];
  repeat match goal with
         | H : ?c = _ |- context [?c] => rewrite H
         end;
  cbn [negb].

(** X19.  The steps are the member functions.  When no other thread
    moves, the accesses of one [push], run one after the other, leave the
    queue that [push] leaves and return what it returns, and fault when it
    faults; so do those of one [pop]; and so do those of one [steal],
    whose compare-exchange then succeeds in the first round of the
    loop. *)
Theorem calls_alone q x val (ths : list (thief T)) (h : list (answer T))
    (o : owner T) (calls : list (owner_call T)) (extra : nat) :
  run_schedule (replicate 4 Owner) (MkSystem q owner_idle [call_push x] ths h)
  = match push x q with
    | Ok ok q' =>
        Some (MkSystem q' owner_idle [] ths (h ++ [push_returned x ok]))
    | _ => None
    end /\
  run_schedule (replicate 7 Owner) (MkSystem q owner_idle [call_pop] ths h)
  = match pop val q with
    | Ok r q' =>
        Some (MkSystem q' owner_idle [] ths (h ++ [pop_returned (taken r)]))
    | _ => None
    end /\
  exists k : nat, (k <= 5)%nat /\
    run_schedule (replicate k (Thief 0))
      (MkSystem q o calls [thief_idle] h)
    = match steal (S extra) val q with
      | Ok r q' =>
          Some (MkSystem q' o calls [thief_idle]
                  (h ++ [steal_returned 0 (taken r)]))
      | _ => None
      end.
Proof.
  destruct q as [B C buf Tp]. split; [| split].
  - unfold push.
    destruct (B >=? SizeT.add Tp C) eqn:Hfull.
    { repeat access. rewrite !app_nil_r. reflexivity. }
    destruct buf as [l |]; [| repeat access; reflexivity].
    destruct (decide (Z.to_nat (SizeT.and B (SizeT.sub C 1)) < length l)%nat)
      as [Hidx | Hidx] eqn:Hdec.
    + repeat access. rewrite !app_nil_r. reflexivity.
    + repeat access. reflexivity.
  - unfold pop.
    destruct (Tp >=? B) eqn:Hemp.
    { repeat access. rewrite !app_nil_r. reflexivity. }
    destruct (Tp >? SizeT.sub B 1) eqn:Hgone.
    { repeat access. rewrite !app_nil_r. reflexivity. }
    destruct buf as [l |]; [| repeat access; reflexivity].
    destruct (l !! Z.to_nat (SizeT.and (SizeT.sub B 1) (SizeT.sub C 1)))
      as [v |] eqn:Hv; [| repeat access; reflexivity].
    destruct (Tp =? SizeT.sub B 1) eqn:Hlast.
    2:{ repeat access. rewrite !app_nil_r. reflexivity. }
    pose proof (Z.eqb_refl Tp) as Hsame.
    repeat access. rewrite !app_nil_r. reflexivity.
  - unfold steal. cbn [steal_loop].
    destruct (Tp >=? B) eqn:Hemp.
    { exists 2%nat. split; [lia |].
      repeat access. rewrite !app_nil_r. reflexivity. }
    destruct buf as [l |].
    2:{ exists 4%nat. split; [lia |]. repeat access. reflexivity. }
    destruct (l !! Z.to_nat (SizeT.and Tp (SizeT.sub C 1))) as [v |] eqn:Hv.
    2:{ exists 4%nat. split; [lia |]. repeat access. reflexivity. }
    pose proof (Z.eqb_refl Tp) as Hsame.
    exists 5%nat. split; [lia |].
    repeat access. rewrite !app_nil_r. reflexivity.
Qed.

End ThreadFacts.

(** ** The further properties at concrete queues *)

Lemma one_item_initialized : initialized one_item.
Proof.
  unfold initialized, SizeT.in_range.
  cbn [one_item _bottom _top _capacity _buffer]. rewrite modulus_eq.
  repeat split; try lia; [apply power_of_two_4 |].
  eexists. split; reflexivity.
Defined.

Lemma three_items_initialized : initialized three_items.
Proof.
  unfold initialized, SizeT.in_range.
  cbn [three_items _bottom _top _capacity _buffer]. rewrite modulus_eq.
  repeat split; try lia; [apply power_of_two_4 |].
  eexists. split; reflexivity.
Defined.

Lemma steal_sequential_witness :
  initialized two_items /\ _top two_items < _bottom two_items /\
  exists x, slot two_items (_top two_items mod _capacity two_items) = Some x /\
    forall extra : nat,
      steal (S extra) 0 two_items = Ok (true, x)
        {| _bottom := _bottom two_items; _capacity := _capacity two_items;
           _buffer := _buffer two_items; _top := _top two_items + 1 |}.
Proof.
  assert (H : _top two_items < _bottom two_items) by (cbn; lia).
  split; [exact two_items_initialized |]. split; [exact H |].
  exact (proj2 (steal_sequential two_items 0 two_items_initialized) H).
Defined.

Lemma push_on_contents_witness :
  initialized two_items /\ invariant two_items /\
  _top two_items + _capacity two_items < SizeT.modulus /\
  Z.of_nat (length (contents two_items)) < _capacity two_items /\
  exists q', push 9 two_items = Ok true q' /\
    contents q' = contents two_items ++ [9].
Proof.
  assert (H1 : _top two_items + _capacity two_items < SizeT.modulus)
    by (vm_compute; reflexivity).
  assert (H2 : Z.of_nat (length (contents two_items)) < _capacity two_items)
    by (vm_compute; reflexivity).
  split; [exact two_items_initialized |].
  split; [exact two_items_invariant |].
  split; [exact H1 |]. split; [exact H2 |].
  exact (proj1 (proj2 (push_on_contents two_items 9 two_items_initialized
                         two_items_invariant H1)) H2).
Defined.

Lemma pop_on_contents_witness :
  initialized two_items /\ _top two_items <= _bottom two_items /\
  contents two_items = [7] ++ [8] /\
  exists q', pop 0 two_items = Ok (true, 8) q' /\ contents q' = [7].
Proof.
  assert (H1 : _top two_items <= _bottom two_items) by (cbn; lia).
  assert (H2 : contents two_items = [7] ++ [8]) by reflexivity.
  split; [exact two_items_initialized |]. split; [exact H1 |].
  split; [exact H2 |].
  exact (proj2 (pop_on_contents two_items 0 two_items_initialized H1)
           [7] 8 H2).
Defined.

Lemma steal_on_contents_witness :
  initialized two_items /\ _top two_items <= _bottom two_items /\
  contents two_items = 7 :: [8] /\
  exists q', steal 1 0 two_items = Ok (true, 7) q' /\ contents q' = [8].
Proof.
  assert (H1 : _top two_items <= _bottom two_items) by (cbn; lia).
  assert (H2 : contents two_items = 7 :: [8]) by reflexivity.
  split; [exact two_items_initialized |]. split; [exact H1 |].
  split; [exact H2 |].
  exact (proj2 (steal_on_contents two_items 0 0%nat two_items_initialized H1)
           7 [8] H2).
Defined.

Lemma calls_act_on_bounded_list_witness :
  initialized two_items /\ invariant two_items /\
  _bottom two_items
    + Z.of_nat (length [Push 9; Push 10; Push 11; Steal 0 0; Pop 0])
    + _capacity two_items < SizeT.modulus /\
  exists q',
    perform_all [Push 9; Push 10; Push 11; Steal 0 0; Pop 0] two_items
      = Ok (fst (deque_perform_all (_capacity two_items)
                   [Push 9; Push 10; Push 11; Steal 0 0; Pop 0]
                   (contents two_items))) q' /\
    contents q'
      = snd (deque_perform_all (_capacity two_items)
               [Push 9; Push 10; Push 11; Steal 0 0; Pop 0]
               (contents two_items)).
Proof.
  assert (H : _bottom two_items
    + Z.of_nat (length [Push 9; Push 10; Push 11; Steal 0 0; Pop 0])
    + _capacity two_items < SizeT.modulus) by (vm_compute; reflexivity).
  split; [exact two_items_initialized |].
  split; [exact two_items_invariant |]. split; [exact H |].
  exact (calls_act_on_bounded_list two_items
           [Push 9; Push 10; Push 11; Steal 0 0; Pop 0]
           two_items_initialized two_items_invariant H).
Defined.

Lemma pops_return_pushes_reversed_witness :
  initialized two_items /\ invariant two_items /\
  Z.of_nat (length (contents two_items) + length [1; 2]) <= _capacity two_items /\
  _bottom two_items + 2 * Z.of_nat (length [1; 2]) + _capacity two_items
    < SizeT.modulus /\
  exists q',
    perform_all ((Push <$> [1; 2]) ++ replicate (length [1; 2]) (Pop 0))
                two_items
      = Ok (replicate (length [1; 2]) (Pushed true)
              ++ ((fun x => Took (Some x)) <$> reverse [1; 2])) q' /\
    contents q' = contents two_items.
Proof.
  assert (H1 : Z.of_nat (length (contents two_items) + length [1; 2])
                 <= _capacity two_items) by (vm_compute; discriminate).
  assert (H2 : _bottom two_items + 2 * Z.of_nat (length [1; 2])
                 + _capacity two_items < SizeT.modulus)
    by (vm_compute; reflexivity).
  split; [exact two_items_initialized |].
  split; [exact two_items_invariant |].
  split; [exact H1 |]. split; [exact H2 |].
  exact (pops_return_pushes_reversed two_items 0 [1; 2]
           two_items_initialized two_items_invariant H1 H2).
Defined.

Lemma steals_return_pushes_in_order_witness :
  initialized two_items /\ invariant two_items /\
  Z.of_nat (length (contents two_items) + length [9]) <= _capacity two_items /\
  _bottom two_items
    + (Z.of_nat (length (contents two_items)) + 2 * Z.of_nat (length [9]))
    + _capacity two_items < SizeT.modulus /\
  exists q',
    perform_all ((Push <$> [9])
                   ++ replicate (length (contents two_items ++ [9]))
                        (Steal 0 0)) two_items
      = Ok (replicate (length [9]) (Pushed true)
              ++ ((fun x => Took (Some x)) <$> (contents two_items ++ [9]))) q' /\
    contents q' = [].
Proof.
  assert (H1 : Z.of_nat (length (contents two_items) + length [9])
                 <= _capacity two_items) by (vm_compute; discriminate).
  assert (H2 : _bottom two_items
    + (Z.of_nat (length (contents two_items)) + 2 * Z.of_nat (length [9]))
    + _capacity two_items < SizeT.modulus) by (vm_compute; reflexivity).
  split; [exact two_items_initialized |].
  split; [exact two_items_invariant |].
  split; [exact H1 |]. split; [exact H2 |].
  exact (steals_return_pushes_in_order two_items 0 0%nat [9]
           two_items_initialized two_items_invariant H1 H2).
Defined.

Lemma masked_counter_names_a_cell_witness :
  initialized two_items /\ SizeT.in_range 13 /\
  SizeT.and 13 (SizeT.sub (_capacity two_items) 1) = 13 mod _capacity two_items /\
  0 <= SizeT.and 13 (SizeT.sub (_capacity two_items) 1) < _capacity two_items /\
  exists x, slot two_items (SizeT.and 13 (SizeT.sub (_capacity two_items) 1))
            = Some x.
Proof.
  assert (H : SizeT.in_range 13)
    by (unfold SizeT.in_range; rewrite modulus_eq; lia).
  split; [exact two_items_initialized |]. split; [exact H |].
  exact (masked_counter_names_a_cell two_items 13 two_items_initialized H).
Defined.

Lemma ring_is_never_resized_witness :
  initialized two_items /\
  exists n' q' l l',
    run [Pop 0; Steal 0 0; Pop 0] (MkTally 0 0 0) two_items = Ok n' q' /\
    _capacity q' = _capacity two_items /\
    _buffer two_items = Some l /\ _buffer q' = Some l' /\
    length l' = length l /\
    (Forall (fun o => forall x, o <> Push x) [Pop 0; Steal 0 0; Pop 0] ->
     l' = l).
Proof.
  split; [exact two_items_initialized |].
  exact (ring_is_never_resized [Pop 0; Steal 0 0; Pop 0] two_items
           (MkTally 0 0 0) two_items_initialized).
Defined.

Lemma worn_out_queue_refuses_every_push_witness :
  initialized worn_out /\ invariant worn_out /\
  SizeT.modulus <= _top worn_out + _capacity worn_out /\
  exists n' q',
    run [Push 7; Pop 0; Push 8; Steal 0 0; Push 9] (MkTally 0 0 0) worn_out
      = Ok n' q' /\
    pushes_ok n' = pushes_ok (MkTally 0 0 0) /\
    SizeT.modulus <= _top q' + _capacity q'.
Proof.
  assert (H : SizeT.modulus <= _top worn_out + _capacity worn_out)
    by (vm_compute; discriminate).
  split; [exact worn_out_initialized |].
  split; [exact worn_out_invariant |]. split; [exact H |].
  exact (worn_out_queue_refuses_every_push
           [Push 7; Pop 0; Push 8; Steal 0 0; Push 9] worn_out (MkTally 0 0 0)
           worn_out_initialized worn_out_invariant H).
Defined.

Lemma push_then_take_witness :
  initialized fresh /\ invariant fresh /\
  _bottom fresh - _top fresh < _capacity fresh /\
  _top fresh + _capacity fresh < SizeT.modulus /\
  exists q1, push 7 fresh = Ok true q1 /\
    (exists q2, pop 0 q1 = Ok (true, 7) q2 /\
       contents q2 = contents fresh /\
       (_top fresh < _bottom fresh ->
          _bottom q2 = _bottom fresh /\ _top q2 = _top fresh) /\
       (_top fresh = _bottom fresh ->
          _bottom q2 = _bottom fresh + 1 /\ _top q2 = _top fresh + 1)) /\
    (_top fresh = _bottom fresh ->
       exists q2, steal 1 0 q1 = Ok (true, 7) q2 /\
         contents q2 = [] /\
         _bottom q2 = _bottom fresh + 1 /\ _top q2 = _top fresh + 1).
Proof.
  assert (H1 : _bottom fresh - _top fresh < _capacity fresh) by (cbn; lia).
  assert (H2 : _top fresh + _capacity fresh < SizeT.modulus)
    by (vm_compute; reflexivity).
  split; [exact fresh_initialized |]. split; [exact fresh_invariant |].
  split; [exact H1 |]. split; [exact H2 |].
  exact (push_then_take fresh 7 0 0%nat fresh_initialized fresh_invariant
           H1 H2).
Defined.

Lemma thief_wins_before_reread_witness :
  initialized one_item /\ _bottom one_item = _top one_item + 1 /\
  exists x, slot one_item (_top one_item mod _capacity one_item) = Some x /\
    steal_lands_before_reread 0 0 0 one_item
      = Ok ((false, 0), (true, x))
           {| _bottom := _bottom one_item; _capacity := _capacity one_item;
              _buffer := _buffer one_item; _top := _bottom one_item |}.
Proof.
  assert (H : _bottom one_item = _top one_item + 1) by reflexivity.
  split; [exact one_item_initialized |]. split; [exact H |].
  exact (thief_wins_before_reread one_item 0 0 0%nat one_item_initialized H).
Defined.

Lemma thief_wins_before_exchange_witness :
  initialized one_item /\ _bottom one_item = _top one_item + 1 /\
  exists x, slot one_item (_top one_item mod _capacity one_item) = Some x /\
    steal_lands_before_exchange 0 0 0 one_item
      = Ok ((false, x), (true, x))
           {| _bottom := _bottom one_item; _capacity := _capacity one_item;
              _buffer := _buffer one_item; _top := _bottom one_item |}.
Proof.
  assert (H : _bottom one_item = _top one_item + 1) by reflexivity.
  split; [exact one_item_initialized |]. split; [exact H |].
  exact (thief_wins_before_exchange one_item 0 0 0%nat one_item_initialized H).
Defined.

Lemma owner_wins_before_exchange_witness :
  initialized one_item /\ _bottom one_item = _top one_item + 1 /\
  exists x, slot one_item (_top one_item mod _capacity one_item) = Some x /\
    pop_lands_before_exchange 1 0 0 one_item
      = Ok ((true, x), (false, x))
           {| _bottom := _bottom one_item; _capacity := _capacity one_item;
              _buffer := _buffer one_item; _top := _bottom one_item |}.
Proof.
  assert (H : _bottom one_item = _top one_item + 1) by reflexivity.
  split; [exact one_item_initialized |]. split; [exact H |].
  exact (owner_wins_before_exchange one_item 0 0 0%nat one_item_initialized H).
Defined.

Lemma steal_inside_pop_finds_nothing_witness :
  initialized one_item /\ _bottom one_item = _top one_item + 1 /\
  exists x, slot one_item (_top one_item mod _capacity one_item) = Some x /\
    steal_inside_pop 1 0 0 one_item
      = Ok ((true, x), (false, 0))
           {| _bottom := _bottom one_item; _capacity := _capacity one_item;
              _buffer := _buffer one_item; _top := _bottom one_item |}.
Proof.
  assert (H : _bottom one_item = _top one_item + 1) by reflexivity.
  split; [exact one_item_initialized |]. split; [exact H |].
  exact (steal_inside_pop_finds_nothing one_item 0 0 1%nat
           one_item_initialized H).
Defined.

Lemma two_thieves_take_different_items_witness :
  initialized two_items /\ _top two_items < _bottom two_items /\
  _top two_items + 1 < _bottom two_items /\
  exists x, slot two_items (_top two_items mod _capacity two_items) = Some x /\
    exists y,
      slot two_items ((_top two_items + 1) mod _capacity two_items) = Some y /\
      two_thieves 1 0 0 two_items
        = Ok ((true, x), (true, y))
             {| _bottom := _bottom two_items; _capacity := _capacity two_items;
                _buffer := _buffer two_items; _top := _top two_items + 2 |}.
Proof.
  assert (H1 : _top two_items < _bottom two_items) by (cbn; lia).
  assert (H2 : _top two_items + 1 < _bottom two_items) by (cbn; lia).
  split; [exact two_items_initialized |]. split; [exact H1 |].
  split; [exact H2 |].
  destruct (two_thieves_take_different_items two_items 0 0 0%nat
              two_items_initialized H1) as (x & Hx & _ & Htwo).
  exists x. split; [exact Hx |]. exact (Htwo H2).
Defined.

Lemma pop_and_steal_take_both_ends_witness :
  initialized three_items /\ _top three_items + 1 < _bottom three_items /\
  _bottom three_items - _top three_items <= _capacity three_items /\
  exists x y,
    slot three_items (_top three_items mod _capacity three_items) = Some x /\
    slot three_items ((_bottom three_items - 1) mod _capacity three_items)
      = Some y /\
    _top three_items mod _capacity three_items
      <> (_bottom three_items - 1) mod _capacity three_items /\
    exists q',
      steal_lands_before_reread 0 0 0 three_items
        = Ok ((true, y), (true, x)) q' /\
      _capacity q' = _capacity three_items /\
      _buffer q' = _buffer three_items /\
      (_bottom three_items = _top three_items + 2 ->
         _bottom q' = _bottom three_items /\ _top q' = _bottom three_items) /\
      (_top three_items + 2 < _bottom three_items ->
         _bottom q' = _bottom three_items - 1 /\
         _top q' = _top three_items + 1).
Proof.
  assert (H1 : _top three_items + 1 < _bottom three_items) by (cbn; lia).
  assert (H2 : _bottom three_items - _top three_items
                 <= _capacity three_items) by (cbn; lia).
  split; [exact three_items_initialized |]. split; [exact H1 |].
  split; [exact H2 |].
  exact (pop_and_steal_take_both_ends three_items 0 0 0%nat
           three_items_initialized H1 H2).
Defined.

(** The two races for the only item of a queue: whoever exchanges first
    returns it, the other returns false, and the queue ends empty. *)
Example race_for_the_only_item :
  run_schedule race (start fresh [call_push 7; call_pop] 2)
  = Some (MkSystem {| _bottom := 2; _capacity := 4;
               _buffer := Some [0; 7; 0; 0]; _top := 2 |}
            owner_idle [] [thief_idle; thief_idle]
            [push_returned 7 true; steal_returned 0 (Some 7);
             pop_returned None; steal_returned 1 None]) /\
  run_schedule race_lost (start fresh [call_push 7; call_pop] 2)
  = Some (MkSystem {| _bottom := 2; _capacity := 4;
               _buffer := Some [0; 7; 0; 0]; _top := 2 |}
            owner_idle [] [thief_idle; thief_idle]
            [push_returned 7 true; pop_returned (Some 7);
             steal_returned 0 None; steal_returned 1 None]).
Proof. split; reflexivity. Qed.


Lemma calls_alone_witness :
  run_schedule (replicate 7 Owner)
    (MkSystem two_items owner_idle [call_pop] [] [])
  = match pop 0 two_items with
    | Ok r q' =>
        Some (MkSystem q' owner_idle [] [] ([] ++ [pop_returned (taken r)]))
    | _ => None
    end.
Proof.
  exact (proj1 (proj2 (calls_alone two_items 0 0 [] [] owner_idle [] 0))).
Defined.

(** ** The platform selection of [context.h] *)

Section PlatformSelection.

Import ContextHeader.

(** X18.  Whatever the compiler predefines, the header defines at most one
    platform macro, and it defines [BTHREAD_CONTEXT_CALL_CONVENTION], on
    which the two declarations rest, exactly once when it defines a
    platform and not at all otherwise.  The convention is [__cdecl] exactly
    for [windows_i386].  Nothing is defined unless [__GNUC__] or
    [__APPLE__] is. *)
Theorem platform_selection (e : predefined) :
  (length (platforms (header e)) <= 1)%nat /\
  length (conventions (header e)) = length (platforms (header e)) /\
  (conventions (header e) = [__cdecl]
     <-> platforms (header e) = [windows_i386]) /\
  (defined (__GNUC__ e) = false -> defined (__APPLE__ e) = false ->
     header e = []).
Proof.
  destruct e as [gnuc apple linux x64 x86 arm a64 loong mingw32 mingw64 mach].
  unfold header. cbn [__GNUC__ __APPLE__ __linux__ __x86_64__ __i386__ __arm__
    __aarch64__ __loongarch64 __MINGW32__ __MINGW64__ __MACH__].
  destruct (defined gnuc), (defined apple), (defined linux), (defined x64),
    (nonzero x86), (defined x86), (nonzero arm), (nonzero a64),
    (defined a64), (nonzero loong), (defined mingw32), (defined mingw64),
    (defined mach);
    cbn; repeat split; intros; try lia; try reflexivity; try discriminate.
Qed.

End PlatformSelection.

Lemma platform_selection_witness :
  ContextHeader.defined None = false /\
  ContextHeader.header
    (ContextHeader.MkPredefined None None (Some 1) (Some 1) None None None
       None None None None) = [].
Proof.
  split; [reflexivity |].
  exact (proj2 (proj2 (proj2 (platform_selection
           (ContextHeader.MkPredefined None None (Some 1) (Some 1) None None
              None None None None None)))) eq_refl eq_refl).
Defined.
